(** * CacheLRU: a shallow embedding of [cachelru.js]

    The JavaScript constructor [CacheLRU] closes over four private
    variables ([_minCacheSize], [_cacheSize], [_currentSize], [_keys]) and
    publishes [head] and [tail] on the instance.  Entries are mutable
    objects [{key, value, newer, older}] compared by identity, so the
    model keeps them in an arena addressed by locations: a field write is
    an in-place update of the arena, and two references are [===] exactly
    when their locations are equal.

    [_keys] is a plain object [{}] used as a dictionary from strings to
    entry references.  Its own properties are modelled as a
    [gmap string loc].  A lookup [_keys[key]] that finds no own property
    goes on to the prototype of the object, [Object.prototype] as the
    host provides it, whose members are listed in [inherited_names]:
    [isSet] and [remove] follow that lookup.  What lies beyond is the
    boundary of the model:

    - [get] and [set] would write the fields [newer], [older] and [value]
      of an inherited member and publish it as [tail]; the state of the
      model holds entries only, and [get] treats such a lookup as one
      that finds nothing;
    - [_keys['__proto__'] = entry] replaces the prototype of the index
      instead of creating a property, after which the lookups of
      ['__proto__'], ['key'], ['value'], ['newer'] and ['older'] answer
      from that entry; the model records the assignment as a binding.

    The keys for which the model and the code agree in every state
    reached through such keys are the [plain] ones; the results that look
    a key up or insert it say which keys they speak of. *)

From Stdlib Require Import ZArith QArith Qround Lqa.
From stdpp Require Import gmap strings list fin_maps sorting.

Local Open Scope Z_scope.

(** ** JavaScript values and numbers *)

(** Entry objects are identified by their position in the arena. *)
Abbreviation loc := nat (only parsing).

(** The values that cross the interface: whatever the caller stores, the
    [undefined] and [null] the methods return, and references to entry
    objects (returned by [put], [shift], [isSet] and [get(key, true)]).
    [Builtin name] is the member [name] of [Object.prototype], an object
    of the host (for ['__proto__'], the prototype itself). *)
Inductive val :=
  | Undefined
  | Null
  | Bool (b : bool)
  | Num (n : Z)
  | Str (s : string)
  | Ref (l : loc)
  | Builtin (name : string).

#[global] Instance val_eq_dec : EqDecision val.
Proof. solve_decision. Defined.

(** [if (v)] *)
Definition truthy (v : val) : bool :=
  match v with
  | Undefined | Null => false
  | Bool b => b
  | Num n => negb (n =? 0)
  | Str s => negb (String.eqb s "")
  | Ref _ | Builtin _ => true
  end.

(** What [parseFloat] and [parseInt] can return: [NaN], an infinity, or
    a finite number.  The capacity arguments are represented by the
    result of the parse the code applies to them first. *)
Inductive number (A : Type) :=
  | NaN
  | Infinity (negative : bool)
  | Finite (a : A).
Arguments NaN {A}.
Arguments Infinity {A} negative.
Arguments Finite {A} a.

(** [Number.MAX_VALUE], an integer: 2^1024 - 2^971. *)
Definition MAX_VALUE : Z := 2 ^ 1024 - 2 ^ 971.

(** [parseFloat(value.toFixed(0))]: the nearest integer, ties away from
    zero. *)
Definition toFixed0 (q : Q) : Z :=
  if Qle_bool 0 q then Qfloor (q + (1 # 2))%Q else - Qfloor (- q + (1 # 2))%Q.

(** [_toNumber(value, onFailedConversion, minValue, maxValue)] with all
    four arguments supplied; [parsed] is [parseFloat(value)].  The second
    [isFinite] test cannot fail once the first has passed. *)
Definition _toNumber (parsed : number Q) (onFailedConversion minValue maxValue : Z) : Z :=
  match parsed with
  | NaN | Infinity _ => onFailedConversion
  | Finite q =>
      let value := toFixed0 q in
      if maxValue <? value then maxValue
      else if value <? minValue then minValue
      else value
  end.

(** ** Entries and the cache object *)

Record entry := Entry {
  key : string;
  value : val;
  newer : option loc;
  older : option loc }.

#[global] Instance entry_inhabited : Inhabited entry :=
  populate (Entry "" Undefined None None).

#[global] Instance entry_eq_dec : EqDecision entry.
Proof. solve_decision. Defined.

Definition set_newer (v : option loc) (e : entry) : entry :=
  Entry (key e) (value e) v (older e).
Definition set_older (v : option loc) (e : entry) : entry :=
  Entry (key e) (value e) (newer e) v.
Definition set_value (v : val) (e : entry) : entry :=
  Entry (key e) v (newer e) (older e).

Record cache := Cache {
  heap : list entry;          (* every entry object created so far *)
  _keys : gmap string loc;
  head : option loc;
  tail : option loc;
  _currentSize : Z;
  _cacheSize : Z }.

Definition _minCacheSize : Z := 2.

Definition with_heap (h : list entry) (s : cache) : cache :=
  Cache h (_keys s) (head s) (tail s) (_currentSize s) (_cacheSize s).
Definition with_keys (m : gmap string loc) (s : cache) : cache :=
  Cache (heap s) m (head s) (tail s) (_currentSize s) (_cacheSize s).
Definition with_head (v : option loc) (s : cache) : cache :=
  Cache (heap s) (_keys s) v (tail s) (_currentSize s) (_cacheSize s).
Definition with_tail (v : option loc) (s : cache) : cache :=
  Cache (heap s) (_keys s) (head s) v (_currentSize s) (_cacheSize s).
Definition with_currentSize (n : Z) (s : cache) : cache :=
  Cache (heap s) (_keys s) (head s) (tail s) n (_cacheSize s).
Definition with_cacheSize (n : Z) (s : cache) : cache :=
  Cache (heap s) (_keys s) (head s) (tail s) (_currentSize s) n.

(** Field read [x.f] and field write [x.f = v] on the arena. *)
Definition read (s : cache) (x : loc) : entry := heap s !!! x.
Definition write (x : loc) (f : entry -> entry) (s : cache) : cache :=
  with_heap (alter f x (heap s)) s.
(** [{key: key, value: value}]: a new object, distinct from all others. *)
Definition alloc (k : string) (v : val) (s : cache) : loc * cache :=
  (length (heap s), with_heap (heap s ++ [Entry k v None None]) s).

(** [new CacheLRU(size)]; [parsed] is [parseFloat(size)]. *)
Definition CacheLRU (parsed : number Q) : cache :=
  Cache [] ∅ None None 0
        (_toNumber parsed _minCacheSize _minCacheSize MAX_VALUE).

(** ** The index object

    The names that a plain object inherits from [Object.prototype]: a
    lookup of one of them that finds no own property yields the inherited
    member, a function, or for ['__proto__'] the prototype itself.  None
    of these objects has a property [key], [value], [newer] or [older]. *)
Definition inherited_names : list string :=
  ["constructor"; "hasOwnProperty"; "isPrototypeOf"; "propertyIsEnumerable";
   "toLocaleString"; "toString"; "valueOf"; "__defineGetter__";
   "__defineSetter__"; "__lookupGetter__"; "__lookupSetter__"; "__proto__"].

Definition inherited (k : string) : bool :=
  bool_decide (k ∈ inherited_names).

(** The names of the fields of an entry, which a lookup on the index
    finds once an entry has become its prototype. *)
Definition entry_fields : list string := ["key"; "value"; "newer"; "older"].

(** The keys that the index object treats as a dictionary would: a
    lookup finds them exactly when they are own properties, and an
    assignment creates an own property. *)
Definition plain (k : string) : bool :=
  bool_decide (k ∉ inherited_names ++ entry_fields).

(** ** Methods *)

Definition destroy (s : cache) : cache :=
  with_keys ∅ (with_currentSize 0 (with_head None (with_tail None s))).

Definition get_result (returnEntry : bool) (entry : loc) (s : cache) : val :=
  if returnEntry then Ref entry else value (read s entry).

(** [get(key, returnEntry)], for the keys whose lookup yields an entry
    of the cache or [undefined]; see the head of the file for the lookup
    of an inherited name. *)
Definition get (k : string) (returnEntry : bool) (s : cache) : val * cache :=
  match _keys s !! k with
  | None => (Undefined, s)
  | Some entry =>
      if decide (tail s = Some entry) then (get_result returnEntry entry s, s)
      else
        let s :=
          match newer (read s entry) with
          | Some n =>
              let s := if decide (head s = Some entry)
                       then with_head (Some n) s else s in
              write n (set_older (older (read s entry))) s
          | None => s
          end in
        let s :=
          match older (read s entry) with
          | Some o => write o (set_newer (newer (read s entry))) s
          | None => s
          end in
        let s := write entry (set_newer None) s in
        let s := write entry (set_older (tail s)) s in
        let s :=
          match tail s with
          | Some t => write t (set_newer (Some entry)) s
          | None => s
          end in
        let s := with_tail (Some entry) s in
        (get_result returnEntry entry s, s)
  end.

(** [return _keys[key]]: the own property when there is one, else what
    the index object inherits. *)
Definition isSet (k : string) (s : cache) : val * cache :=
  (match _keys s !! k with
   | Some entry => Ref entry
   | None => if inherited k then Builtin k else Undefined
   end, s).

(** The [while (entry)] loops of [iterate], collecting the arguments
    [(entry.key, entry.value)] of the successive calls of the iteratee.
    The loop has no bound of its own; [fuel] bounds the number of
    iterations the model follows. *)
Fixpoint visit (next : entry -> option loc) (fuel : nat) (s : cache)
    (cur : option loc) : list (string * val) :=
  match fuel, cur with
  | S fuel, Some x =>
      (key (read s x), value (read s x)) :: visit next fuel s (next (read s x))
  | _, _ => []
  end.

Definition iterate (descending : bool) (fuel : nat) (s : cache) : list (string * val) :=
  if descending then visit older fuel s (tail s)
  else visit newer fuel s (head s).

(** The entries met by the ascending loop of [iterate], as references. *)
Fixpoint walk (fuel : nat) (s : cache) (cur : option loc) : list loc :=
  match fuel, cur with
  | S fuel, Some x => x :: walk fuel s (newer (read s x))
  | _, _ => []
  end.

Definition order (s : cache) : list loc := walk (S (length (heap s))) s (head s).

Definition shift (s : cache) : val * cache :=
  match head s with
  | Some entry =>
      let s :=
        match newer (read s entry) with
        | Some n =>
            let s := with_head (Some n) s in
            write n (set_older None) s
        | None => with_head None s
        end in
      let s := write entry (set_older None) s in
      let s := write entry (set_newer None) s in
      let s := with_keys (delete (key (read s entry)) (_keys s)) s in
      (Ref entry, s)
  | None => (Undefined, s)
  end.

(** The statements of [put] up to [scope.tail = entry]: the new entry is
    created, bound in the index and linked after the current tail.  For
    every key but ['__proto__'] the assignment [_keys[key] = entry]
    creates or overwrites an own property of the index. *)
Definition put_link (k : string) (v : val) (s : cache) : loc * cache :=
  let '(entry, s) := alloc k v s in
  let s := with_keys (<[k := entry]> (_keys s)) s in
  let s :=
    match tail s with
    | Some t =>
        let s := write t (set_newer (Some entry)) s in
        write entry (set_older (tail s)) s
    | None => with_head (Some entry) s
    end in
  (entry, with_tail (Some entry) s).

Definition put (k : string) (v : val) (s : cache) : val * cache :=
  let '(entry, s) := put_link k v s in
  if decide (_currentSize s = _cacheSize s) then shift s
  else (Null, with_currentSize (_currentSize s + 1) s).

(** In each branch the first write stores into a neighbour a value that
    leaves the fields [entry.newer] and [entry.older] as they were (also
    when the neighbour is [entry] itself), so the second statement reads
    the [n] and [o] already matched.

    [if (!entry) return;] lets an inherited member through: its [key] is
    [undefined], so that [delete _keys[entry.key]] deletes the property
    named ["undefined"], and its [newer] and [older] are [undefined],
    which selects the last branch; [entry.value] is [undefined]. *)
Definition remove (k : string) (s : cache) : val * cache :=
  match _keys s !! k with
  | None =>
      if inherited k then
        let s := with_keys (delete "undefined" (_keys s)) s in
        let s := with_head None (with_tail None s) in
        let s := with_currentSize (_currentSize s - 1) s in
        (Undefined, s)
      else (Undefined, s)
  | Some entry =>
      let s := with_keys (delete (key (read s entry)) (_keys s)) s in
      let s :=
        match newer (read s entry), older (read s entry) with
        | Some n, Some o =>
            let s := write o (set_newer (Some n)) s in
            write n (set_older (Some o)) s
        | Some n, None =>
            let s := write n (set_older None) s in
            with_head (Some n) s
        | None, Some o =>
            let s := write o (set_newer None) s in
            with_tail (Some o) s
        | None, None => with_head None (with_tail None s)
        end in
      let s := with_currentSize (_currentSize s - 1) s in
      (value (read s entry), s)
  end.

Definition set (k : string) (v : val) (s : cache) : val * cache :=
  let '(r, s) := get k true s in
  match r with
  | Ref entry =>
      let oldvalue := value (read s entry) in
      (oldvalue, write entry (set_value v) s)
  | _ =>
      let '(oldvalue, s) := put k v s in
      match oldvalue with
      | Ref evicted => (value (read s evicted), s)
      | _ => (oldvalue, s)
      end
  end.

(** ** The [limit] property *)

Definition limit_get (s : cache) : Z := _cacheSize s.

(** How a call ends: it returns, or an exception propagates to the
    caller.  Either way the writes made so far stay in the cache. *)
Inductive completion :=
  | Returns (s : cache)
  | Throws (error : string) (s : cache).

Definition state_of (c : completion) : cache :=
  match c with Returns s | Throws _ s => s end.

(** The setter uses the identifier [_], which the module neither declares
    nor receives from its loader: it resolves to whatever the host has
    bound globally, and evaluating it raises a [ReferenceError] when
    nothing is bound. *)
Inductive underscore :=
  | Unbound
  | Lodash.

(** Modelled from the spec: [_.times] belongs to the lodash/underscore
    library, which is not part of the sources; section 4.1 describes the
    setter as evicting from the head repeatedly, and [times n iteratee]
    is that repetition: [iteratee] is called [n] times, and not at all
    when [n] is below one. *)
Definition times (n : Z) (iteratee : cache -> cache) (s : cache) : cache :=
  Nat.iter (Z.to_nat n) iteratee s.

(** The first statements of the setter: [parsed] is [parseInt(value)],
    replaced by [_minCacheSize] when it is [NaN], not finite or below
    [_minCacheSize]. *)
Definition clamped (parsed : number Z) : Z :=
  match parsed with
  | NaN | Infinity _ => _minCacheSize
  | Finite n => if n <? _minCacheSize then _minCacheSize else n
  end.

Definition limit_set (g : underscore) (parsed : number Z) (s : cache) : completion :=
  let value := clamped parsed in
  let s := with_cacheSize value s in
  if decide (_currentSize s - value = 0) then Returns s
  else
    match g with
    | Unbound => Throws "ReferenceError" s
    | Lodash => Returns (times (_currentSize s - value) (fun s => (shift s).2) s)
    end.

(** ** Sequences of calls *)

Inductive call :=
  | Put (k : string) (v : val)
  | Set_ (k : string) (v : val)
  | Get (k : string)
  | Remove (k : string)
  | Shift
  | Limit (parsed : number Z)
  | Destroy.

Definition perform (g : underscore) (c : call) (s : cache) : cache :=
  match c with
  | Put k v => (put k v s).2
  | Set_ k v => (set k v s).2
  | Get k => (get k false s).2
  | Remove k => (remove k s).2
  | Shift => (shift s).2
  | Limit parsed => state_of (limit_set g parsed s)
  | Destroy => destroy s
  end.

Definition run (g : underscore) (cs : list call) (s : cache) : cache :=
  foldl (fun s c => perform g c s) s cs.

Definition is_limit (c : call) : bool :=
  match c with Limit _ => true | _ => false end.

(** A run of [put] calls, with the value each call returns. *)
Fixpoint put_each (kvs : list (string * val)) (s : cache) : list val * cache :=
  match kvs with
  | [] => ([], s)
  | (k, v) :: kvs =>
      let '(r, s) := put k v s in
      let '(rs, s) := put_each kvs s in
      (r :: rs, s)
  end.

(** ** Caches used in the scenarios *)

(** [new CacheLRU(2)] after [put('a', 1); put('b', 2)]. *)
Definition cache_ab : cache :=
  (put_each [("a", Num 1); ("b", Num 2)] (CacheLRU (Finite (2 # 1)))).2.

(** [new CacheLRU(5)] after [put('a', 1); put('b', 2); put('c', 3)]. *)
Definition cache_abc : cache :=
  (put_each [("a", Num 1); ("b", Num 2); ("c", Num 3)] (CacheLRU (Finite (5 # 1)))).2.

(** [new CacheLRU(5)] after five [put]s: full, oldest to newest
    [a, b, c, d, e]. *)
Definition cache_abcde : cache :=
  (put_each [("a", Num 1); ("b", Num 2); ("c", Num 3); ("d", Num 4); ("e", Num 5)]
            (CacheLRU (Finite (5 # 1)))).2.

(** ** Well-formed caches

    [seg h prev l next]: in the arena [h], the entries [l] are linked one
    after the other, the first having [prev] as its [older] and the last
    having [next] as its [newer]. *)

Definition hd_or (next : option loc) (l : list loc) : option loc :=
  match l with [] => next | x :: _ => Some x end.

Definition last_or (prev : option loc) (l : list loc) : option loc :=
  match last l with Some x => Some x | None => prev end.

Fixpoint seg (h : list entry) (prev : option loc) (l : list loc)
    (next : option loc) : Prop :=
  match l with
  | [] => True
  | x :: l' =>
      match h !! x with
      | Some e => older e = prev /\ newer e = hd_or next l' /\ seg h (Some x) l' next
      | None => False
      end
  end.

(** The order list of [s] is [l], oldest first: what the ascending loop
    of [iterate] meets from [head]. *)
Definition ordered (s : cache) (l : list loc) : Prop :=
  NoDup l /\ seg (heap s) None l None /\ head s = hd_error l.

(** The index binds exactly the keys of the entries of [l], each to its
    entry. *)
Definition indexed (s : cache) (l : list loc) : Prop :=
  forall k x, _keys s !! k = Some x <-> x ∈ l /\ key (read s x) = k.

Definition wf (s : cache) (l : list loc) : Prop :=
  ordered s l /\ tail s = last l /\ indexed s l.

(** [new CacheLRU(2)] after [put('a', 1)]. *)
Definition cache_a : cache :=
  (put_each [("a", Num 1)] (CacheLRU (Finite (2 # 1)))).2.

(** [new CacheLRU(3)] after three [put]s, two [shift()]s, the removal of
    the last key and [limit = 2]: empty, with [_currentSize] 2 equal to
    the capacity. *)
Definition cache_drained : cache :=
  run Unbound [Put "a" (Num 1); Put "b" (Num 2); Put "c" (Num 3);
               Shift; Shift; Remove "c"; Limit (Finite 2)]
      (CacheLRU (Finite (3 # 1))).

(** A sequence of upsert calls. *)
Definition upsert_calls : list call :=
  [Set_ "a" (Num 1); Set_ "b" (Num 2); Get "a"; Set_ "c" (Num 3);
   Set_ "a" (Num 4); Remove "c"; Get "b"; Get "z"].

(** ** The rest of the interface *)

(** [keys()]: [Object.keys(_keys).sort()].  ['__proto__'] is never an
    own property of the index, so [Object.keys] does not list it.  The
    default [sort] orders strings by their UTF-16 code units; on strings
    of ASCII characters ([ascii_only]) that is the order [String.le] of
    their bytes, and the keys being distinct, every sorting algorithm
    returns the same array. *)
Definition keys (s : cache) : list string :=
  merge_sort String.le
    (filter (fun k => k <> "__proto__") (map_to_list (_keys s)).*1).

Fixpoint ascii_only (k : string) : bool :=
  match k with
  | EmptyString => true
  | String c k => Nat.ltb (Ascii.nat_of_ascii c) 128 && ascii_only k
  end.

(** The key a call looks up or inserts is [plain]. *)
Definition plain_call (c : call) : bool :=
  match c with
  | Put k _ | Set_ k _ | Get k | Remove k => plain k
  | Shift | Limit _ | Destroy => true
  end.

(** The pairs [(key, value)] held by the entries [l], in that order. *)
Definition contents (s : cache) (l : list loc) : list (string * val) :=
  (fun x => (key (read s x), value (read s x))) <$> l.

(** A call with the value it returns; [destroy] and the setter of
    [limit] return nothing, that is [undefined]. *)
Definition invoke (g : underscore) (c : call) (s : cache) : val * cache :=
  match c with
  | Put k v => put k v s
  | Set_ k v => set k v s
  | Get k => get k false s
  | Remove k => remove k s
  | Shift => shift s
  | Limit parsed => (Undefined, state_of (limit_set g parsed s))
  | Destroy => (Undefined, destroy s)
  end.

Fixpoint invoke_each (g : underscore) (cs : list call) (s : cache) : list val * cache :=
  match cs with
  | [] => ([], s)
  | c :: cs =>
      let '(r, s) := invoke g c s in
      let '(rs, s) := invoke_each g cs s in
      (r :: rs, s)
  end.

(** [n] successive calls of [shift()], with what each returns. *)
Fixpoint drain (n : nat) (s : cache) : list val * cache :=
  match n with
  | O => ([], s)
  | S n =>
      let '(r, s) := shift s in
      let '(rs, s) := drain n s in
      (r :: rs, s)
  end.

(** The calls that never insert a key twice and never evict without
    counting: [set], [get], [remove] and [destroy]. *)
Definition is_upsert (c : call) : bool :=
  match c with
  | Set_ _ _ | Get _ | Remove _ | Destroy => true
  | Put _ _ | Shift | Limit _ => false
  end.

(** A cache in which, besides being well formed, [_currentSize] is the
    number of entries and does not exceed the capacity. *)
Definition exact (s : cache) (l : list loc) : Prop :=
  wf s l /\ _currentSize s = Z.of_nat (length l) /\
  _currentSize s <= _cacheSize s /\ 2 <= _cacheSize s.

(** ** The cache as the specification describes it

    Section 4.1 of the specification, on the sequence of pairs from least
    to most recently used: [get] of a present key moves its pair to the
    most recent end and returns the value, [set] of a present key does
    the same and overwrites the value, returning the old one; [set] of an
    absent key adds a pair at the most recent end and, the count never
    exceeding the capacity, first evicts the least recent pair when the
    cache already holds capacity many, returning the evicted value;
    [remove] takes the pair out and returns its value; [reset] drops
    everything.  [None] stands for the specification's absent and
    none.  The other calls are not part of the comparison. *)

Fixpoint spec_lookup (k : string) (m : list (string * val)) : option val :=
  match m with
  | [] => None
  | (k', v) :: m => if decide (k' = k) then Some v else spec_lookup k m
  end.

Definition spec_without (k : string) (m : list (string * val)) : list (string * val) :=
  filter (fun p => p.1 <> k) m.

Definition spec_get (k : string) (m : list (string * val)) :
    option val * list (string * val) :=
  match spec_lookup k m with
  | Some v => (Some v, spec_without k m ++ [(k, v)])
  | None => (None, m)
  end.

Definition spec_set (capacity : Z) (k : string) (v : val) (m : list (string * val)) :
    option val * list (string * val) :=
  match spec_lookup k m with
  | Some old => (Some old, spec_without k m ++ [(k, v)])
  | None =>
      if decide (Z.of_nat (length m) = capacity) then
        match m with
        | (_, evicted) :: m' => (Some evicted, m' ++ [(k, v)])
        | [] => (None, [(k, v)])
        end
      else (None, m ++ [(k, v)])
  end.

Definition spec_remove (k : string) (m : list (string * val)) :
    option val * list (string * val) :=
  match spec_lookup k m with
  | Some v => (Some v, spec_without k m)
  | None => (None, m)
  end.

Definition spec_invoke (capacity : Z) (c : call) (m : list (string * val)) :
    option val * list (string * val) :=
  match c with
  | Set_ k v => spec_set capacity k v m
  | Get k => spec_get k m
  | Remove k => spec_remove k m
  | Destroy => (None, [])
  | Put _ _ | Shift | Limit _ => (None, m)
  end.

Fixpoint spec_invoke_each (capacity : Z) (cs : list call) (m : list (string * val)) :
    list (option val) * list (string * val) :=
  match cs with
  | [] => ([], m)
  | c :: cs =>
      let '(r, m) := spec_invoke capacity c m in
      let '(rs, m) := spec_invoke_each capacity cs m in
      (r :: rs, m)
  end.

(** How the code shows the specification's result of a call: the value
    itself, and for none [null] from [set] and [undefined] otherwise. *)
Definition shown (c : call) (r : option val) : val :=
  match r, c with
  | Some v, _ => v
  | None, Set_ _ _ => Null
  | None, _ => Undefined
  end.

(** ** Reading and writing the arena *)

Lemma read_write_other x y f s : x <> y -> read (write x f s) y = read s y.
Proof.
  intros Hxy. unfold read, write; simpl.
  apply list_lookup_total_alter_ne. exact Hxy.
Qed.

Lemma read_lookup s x e : heap s !! x = Some e -> read s x = e.
Proof. intros H. unfold read. by apply list_lookup_total_correct. Qed.

Lemma key_alter (f : entry -> entry) x y (h : list entry) :
  (forall e, key (f e) = key e) -> key (alter f x h !!! y) = key (h !!! y).
Proof.
  intros Hf. rewrite list_lookup_total_alter.
  case_decide as Hc; [|done]. destruct Hc as [-> _]. apply Hf.
Qed.

Lemma value_alter (f : entry -> entry) x y (h : list entry) :
  (forall e, value (f e) = value e) -> value (alter f x h !!! y) = value (h !!! y).
Proof.
  intros Hf. rewrite list_lookup_total_alter.
  case_decide as Hc; [|done]. destruct Hc as [-> _]. apply Hf.
Qed.

(** Rewriting a link leaves keys and values alone. *)
Ltac links_only :=
  unfold read, write; simpl;
  rewrite ?key_alter, ?value_alter by done.

(** ** Segments *)

Lemma seg_cons h p x l n :
  seg h p (x :: l) n <->
  exists e, h !! x = Some e /\ older e = p /\ newer e = hd_or n l /\ seg h (Some x) l n.
Proof.
  simpl. destruct (h !! x) as [e|].
  - split; [intros (? & ? & ?); by exists e|intros (e' & [= <-] & ?); done].
  - split; [done|intros (e' & [=] & _)].
Qed.

Arguments seg : simpl never.

Lemma seg_allocated h p l n x : seg h p l n -> x ∈ l -> is_Some (h !! x).
Proof.
  revert p. induction l as [|y l IH]; intros p Hs Hx.
  - by apply elem_of_nil in Hx.
  - apply seg_cons in Hs as (e & He & _ & _ & Hs).
    apply elem_of_cons in Hx as [->|Hx]; [by rewrite He|eauto].
Qed.

Lemma seg_frame f y h p l n : seg h p l n -> y ∉ l -> seg (alter f y h) p l n.
Proof.
  revert p. induction l as [|x l IH]; intros p Hs Hy; [done|].
  apply not_elem_of_cons in Hy as [Hyx Hy].
  apply seg_cons in Hs as (e & He & ? & ? & Hs).
  apply seg_cons. exists e. rewrite list_lookup_alter_ne by done.
  split_and!; [done|done|done|by apply IH].
Qed.

Lemma seg_grow e h p l n : seg h p l n -> seg (h ++ [e]) p l n.
Proof.
  revert p. induction l as [|x l IH]; intros p Hs; [done|].
  apply seg_cons in Hs as (e' & He & ? & ? & Hs).
  apply seg_cons. exists e'. rewrite (lookup_app_l_Some _ _ _ _ He).
  split_and!; [done|done|done|by apply IH].
Qed.

Lemma hd_or_app n l1 l2 : hd_or n (l1 ++ l2) = hd_or (hd_or n l2) l1.
Proof. by destruct l1. Qed.

Lemma hd_or_None l : hd_or None l = hd_error l.
Proof. by destruct l. Qed.

Lemma last_or_cons p x l : last_or p (x :: l) = last_or (Some x) l.
Proof.
  unfold last_or. destruct l as [|y l]; [done|].
  rewrite last_cons_cons. destruct (last (y :: l)) eqn:E; [done|].
  by apply last_None in E.
Qed.

Lemma last_or_snoc p l x : last_or p (l ++ [x]) = Some x.
Proof. unfold last_or. by rewrite last_snoc. Qed.

Lemma last_or_None l : last_or None l = last l.
Proof. unfold last_or. by destruct (last l). Qed.

Lemma seg_app h p l1 l2 n :
  seg h p (l1 ++ l2) n <-> seg h p l1 (hd_or n l2) /\ seg h (last_or p l1) l2 n.
Proof.
  revert p. induction l1 as [|x l1 IH]; intros p.
  - unfold last_or; simpl. unfold seg at 2. tauto.
  - rewrite <- app_comm_cons, !seg_cons, last_or_cons, hd_or_app.
    split.
    + intros (e & ? & ? & ? & [? ?]%IH). split; [by exists e|done].
    + intros [(e & ? & ? & ? & ?) ?]. exists e.
      split_and!; [done|done|done|by apply IH].
Qed.

Lemma seg_set_prev p' h p y l n :
  seg h p (y :: l) n -> y ∉ l -> seg (alter (set_older p') y h) p' (y :: l) n.
Proof.
  intros (e & He & _ & ? & Hs)%seg_cons Hy.
  apply seg_cons. exists (set_older p' e).
  rewrite list_lookup_alter_eq, He.
  split_and!; [done|done|done|by apply seg_frame].
Qed.

Lemma seg_set_next n' h p l y n :
  seg h p (l ++ [y]) n -> y ∉ l -> seg (alter (set_newer n') y h) p (l ++ [y]) n'.
Proof.
  revert p. induction l as [|x l IH]; intros p Hs Hy.
  - apply seg_cons in Hs as (e & He & ? & _ & _).
    apply seg_cons. exists (set_newer n' e).
    by rewrite list_lookup_alter_eq, He.
  - apply not_elem_of_cons in Hy as [Hyx Hy].
    rewrite <- app_comm_cons in *.
    apply seg_cons in Hs as (e & He & ? & Hn & Hs).
    apply seg_cons. exists e. rewrite list_lookup_alter_ne by done.
    split_and!; [done|done| |by apply IH].
    rewrite Hn. by destruct l.
Qed.

Lemma seg_lookup h p l1 x l2 n :
  seg h p (l1 ++ x :: l2) n ->
  exists e, h !! x = Some e /\ older e = last_or p l1 /\ newer e = hd_or n l2.
Proof.
  rewrite seg_app, seg_cons. intros [_ (e & ? & ? & ? & _)]. by exists e.
Qed.

(** The ascending loop of [iterate] meets exactly the entries of the
    order list, from any bound on the iterations that is large enough. *)
Lemma walk_seg s p l fuel :
  seg (heap s) p l None -> (length l < fuel)%nat -> walk fuel s (hd_error l) = l.
Proof.
  revert p fuel. induction l as [|x l IH]; intros p fuel Hs Hf.
  - by destruct fuel.
  - destruct fuel as [|fuel]; [simpl in Hf; lia|].
    apply seg_cons in Hs as (e & He & _ & Hn & Hs). simpl.
    rewrite (read_lookup _ _ _ He), Hn, hd_or_None.
    f_equal. apply (IH (Some x)); [done|simpl in Hf; lia].
Qed.

(** ** The index under deletion and insertion *)

Lemma indexed_delete s s' l1 x l2 :
  NoDup (l1 ++ x :: l2) ->
  indexed s (l1 ++ x :: l2) ->
  _keys s' = delete (key (read s x)) (_keys s) ->
  (forall y, key (read s' y) = key (read s y)) ->
  indexed s' (l1 ++ l2).
Proof.
  intros Hnd Hix Hk Hkey k y. unfold indexed in Hix. rewrite Hk, Hkey.
  assert (Hx : _keys s !! (key (read s x)) = Some x).
  { apply Hix. split; [|done]. apply elem_of_app. right. apply elem_of_cons. by left. }
  assert (Hmem : forall z, z ∈ l1 ++ x :: l2 <-> z = x \/ z ∈ l1 ++ l2).
  { intros z. rewrite !elem_of_app, elem_of_cons. tauto. }
  assert (Hnx : x ∉ l1 ++ l2).
  { apply NoDup_app in Hnd as (_ & Hd & Hn2).
    apply NoDup_cons in Hn2 as [Hx2 _].
    intros [Hin|Hin]%elem_of_app; [|done].
    apply (Hd x Hin). apply elem_of_cons. by left. }
  rewrite lookup_delete. case_decide as Hkk.
  - split; [done|]. intros [Hy Hyk]. exfalso.
    assert (_keys s !! k = Some y) as Hy'.
    { apply Hix. split; [|done]. apply Hmem. by right. }
    rewrite <- Hkk, Hx in Hy'. by injection Hy' as ->.
  - rewrite Hix, Hmem. split; [|tauto].
    intros [[->|Hy] Hyk]; [done|tauto].
Qed.

Lemma indexed_insert s s' l k n :
  indexed s l ->
  _keys s !! k = None ->
  n ∉ l ->
  _keys s' = <[k := n]> (_keys s) ->
  key (read s' n) = k ->
  (forall y, y ∈ l -> key (read s' y) = key (read s y)) ->
  indexed s' (l ++ [n]).
Proof.
  intros Hix Hfresh Hn Hk Hkn Hkey k' y. unfold indexed in Hix.
  rewrite Hk, lookup_insert, elem_of_app, list_elem_of_singleton.
  case_decide as Hkk.
  - subst k'. split.
    + intros [= <-]. auto.
    + intros [[Hy| ->] Hyk]; [|done]. exfalso.
      rewrite Hkey in Hyk by done.
      assert (_keys s !! k = Some y) as Hy' by (by apply Hix).
      by rewrite Hfresh in Hy'.
  - rewrite Hix. split.
    + intros [Hy Hyk]. split; [by left|]. by rewrite Hkey.
    + intros [[Hy| ->] Hyk]; [|congruence]. split; [done|]. by rewrite <- Hkey.
Qed.

(** ** [shift] on a well-ordered cache *)

Lemma shift_ordered s x l :
  ordered s (x :: l) ->
  (shift s).1 = Ref x /\
  ordered (shift s).2 l /\
  _keys (shift s).2 = delete (key (read s x)) (_keys s) /\
  tail (shift s).2 = tail s /\
  _currentSize (shift s).2 = _currentSize s /\
  _cacheSize (shift s).2 = _cacheSize s /\
  length (heap (shift s).2) = length (heap s) /\
  (forall y, key (read (shift s).2 y) = key (read s y)) /\
  (forall y, value (read (shift s).2 y) = value (read s y)) /\
  newer (read (shift s).2 x) = None /\ older (read (shift s).2 x) = None.
Proof.
  intros (Hnd & Hseg & Hhd). simpl in Hhd.
  apply NoDup_cons in Hnd as [Hx Hnd].
  apply seg_cons in Hseg as (e & He & Ho & Hn & Hseg).
  assert (Hlt : (x < length (heap s))%nat) by by eapply lookup_lt_Some.
  unfold shift. rewrite Hhd, (read_lookup _ _ _ He), Hn.
  destruct l as [|n l]; simpl hd_or; cbv iota; unfold ordered; simpl.
  - split_and!; try done.
    + links_only. by rewrite (list_lookup_total_correct _ _ _ He).
    + by rewrite !length_alter.
    + intros y. by links_only.
    + intros y. by links_only.
    + unfold read, write; simpl.
      by rewrite list_lookup_total_alter_eq by (by rewrite ?length_alter).
    + unfold read, write; simpl.
      by rewrite !list_lookup_total_alter_eq by (by rewrite ?length_alter).
  - apply not_elem_of_cons in Hx as Hx'. destruct Hx' as [Hxn Hxl].
    split_and!; try done.
    + do 2 (apply seg_frame; [|done]).
      apply (seg_set_prev None _ (Some x)); [done|].
      by apply NoDup_cons in Hnd as [? _].
    + links_only. by rewrite (list_lookup_total_correct _ _ _ He).
    + by rewrite !length_alter.
    + intros y. by links_only.
    + intros y. by links_only.
    + unfold read, write; simpl.
      by rewrite list_lookup_total_alter_eq by (by rewrite ?length_alter).
    + unfold read, write; simpl.
      by rewrite !list_lookup_total_alter_eq by (by rewrite ?length_alter).
Qed.

(** ** [put] on a well-ordered cache *)

Lemma ordered_allocated s l x : ordered s l -> x ∈ l -> (x < length (heap s))%nat.
Proof.
  intros (_ & Hseg & _) Hx.
  apply lookup_lt_is_Some. by eapply seg_allocated.
Qed.

Lemma put_link_ordered k v s l :
  ordered s l -> tail s = last l ->
  let n := length (heap s) in
  let s' := (put_link k v s).2 in
  (put_link k v s).1 = n /\
  ordered s' (l ++ [n]) /\
  tail s' = Some n /\
  _keys s' = <[k := n]> (_keys s) /\
  _currentSize s' = _currentSize s /\
  _cacheSize s' = _cacheSize s /\
  length (heap s') = S (length (heap s)) /\
  key (read s' n) = k /\ value (read s' n) = v /\
  (forall y, (y < n)%nat -> key (read s' y) = key (read s y)) /\
  (forall y, (y < n)%nat -> value (read s' y) = value (read s y)).
Proof.
  intros Hord Htl n s'.
  assert (Hfresh : n ∉ l).
  { intros Hn%(ordered_allocated s); [|done]. unfold n in Hn. lia. }
  destruct Hord as (Hnd & Hseg & Hhd).
  assert (Hnew : forall e, (heap s ++ [e]) !! n = Some e).
  { intros e. unfold n. by rewrite list_lookup_middle. }
  assert (Hold : forall e y, (y < n)%nat -> (heap s ++ [e]) !!! y = heap s !!! y).
  { intros e y Hy. by apply lookup_total_app_l. }
  subst s'. unfold put_link, alloc. simpl.
  destruct l as [|t l _] using rev_ind.
  - simpl in Htl. rewrite Htl. unfold ordered. simpl.
    split_and!; try done.
    + apply NoDup_singleton.
    + apply seg_cons. eexists. by rewrite Hnew.
    + by rewrite length_app, Nat.add_comm.
    + unfold read; simpl. by rewrite (list_lookup_total_correct _ _ _ (Hnew _)).
    + unfold read; simpl. by rewrite (list_lookup_total_correct _ _ _ (Hnew _)).
    + intros y Hy. unfold read; simpl. by rewrite Hold.
    + intros y Hy. unfold read; simpl. by rewrite Hold.
  - rewrite last_snoc in Htl. rewrite Htl. unfold ordered. simpl.
    apply NoDup_app in Hnd as Hnd'. destruct Hnd' as (_ & Htl' & _).
    assert (Ht : t ∉ l).
    { intros Hin. apply (Htl' t Hin). apply list_elem_of_singleton. done. }
    assert (Htn : t <> n).
    { intros ->. apply Hfresh. apply elem_of_app. right. by apply list_elem_of_singleton. }
    split_and!; try done.
    + apply NoDup_app. split_and!; [done| |apply NoDup_singleton].
      intros y Hy ->%list_elem_of_singleton. done.
    + apply seg_app. simpl. split.
      * apply seg_frame; [|done].
        apply (seg_set_next _ _ _ _ _ None); [|done]. by apply seg_grow.
      * rewrite last_or_snoc. apply seg_cons. eexists.
        rewrite list_lookup_alter_eq, list_lookup_alter_ne, Hnew by done.
        done.
    + rewrite Hhd. by destruct l.
    + by rewrite !length_alter, length_app, Nat.add_comm.
    + links_only. by rewrite (list_lookup_total_correct _ _ _ (Hnew _)).
    + links_only. by rewrite (list_lookup_total_correct _ _ _ (Hnew _)).
    + intros y Hy. links_only. by rewrite Hold.
    + intros y Hy. links_only. by rewrite Hold.
Qed.

(** ** [remove] on a well-formed cache *)

Lemma NoDup_drop_middle (l1 : list nat) x l2 :
  NoDup (l1 ++ x :: l2) -> NoDup (l1 ++ l2) /\ x ∉ l1 ++ l2.
Proof.
  rewrite !NoDup_app, NoDup_cons, elem_of_app.
  intros (H1 & Hd & Hx & H2). split.
  - split_and!; [done| |done].
    intros y Hy Hy2. apply (Hd y Hy). apply elem_of_cons. by right.
  - intros [Hin|Hin]; [|done]. apply (Hd x Hin). apply elem_of_cons. by left.
Qed.

Lemma remove_present k s l1 x l2 :
  wf s (l1 ++ x :: l2) ->
  _keys s !! k = Some x ->
  let s' := (remove k s).2 in
  (remove k s).1 = value (read s x) /\
  wf s' (l1 ++ l2) /\
  _keys s' = delete k (_keys s) /\
  _currentSize s' = _currentSize s - 1 /\
  _cacheSize s' = _cacheSize s /\
  (forall y, key (read s' y) = key (read s y)) /\
  (forall y, value (read s' y) = value (read s y)).
Proof.
  intros ((Hnd & Hseg & Hhd) & Htl & Hix) Hk s'.
  assert (Hkx : key (read s x) = k) by by apply Hix.
  destruct (seg_lookup _ _ _ _ _ _ Hseg) as (e & He & Ho & Hn).
  destruct (NoDup_drop_middle _ _ _ Hnd) as [Hnd' Hx'].
  assert (Hkeys : _keys s' = delete k (_keys s) /\
                  (forall y, key (read s' y) = key (read s y)) /\
                  (forall y, value (read s' y) = value (read s y)) /\
                  (remove k s).1 = value (read s x) /\
                  _currentSize s' = _currentSize s - 1 /\
                  _cacheSize s' = _cacheSize s).
  { subst s'. unfold remove. rewrite Hk. cbv zeta.
    replace (read (with_keys (delete (key (read s x)) (_keys s)) s) x)
      with (read s x) by done.
    rewrite Hkx.
    destruct (newer (read s x)), (older (read s x));
      split_and!; try done; try intros y; by links_only. }
  destruct Hkeys as (Hk' & Hkey & Hval & Hres & Hsz & Hcap).
  split_and!; try done.
  assert (Hix' : indexed s' (l1 ++ l2)).
  { apply (indexed_delete s s' l1 x l2); [done|done| |done]. by rewrite Hkx. }
  assert (Hs' : heap s' =
    match hd_or None l2, last_or None l1 with
    | Some n, Some o => alter (set_older (Some o)) n (alter (set_newer (Some n)) o (heap s))
    | Some n, None => alter (set_older None) n (heap s)
    | None, Some o => alter (set_newer None) o (heap s)
    | None, None => heap s
    end /\
    head s' = match last_or None l1 with Some _ => head s | None => hd_or None l2 end /\
    tail s' = match hd_or None l2 with Some _ => tail s | None => last_or None l1 end).
  { subst s'. unfold remove. rewrite Hk. cbv zeta.
    replace (read (with_keys (delete (key (read s x)) (_keys s)) s) x)
      with (read s x) by done.
    rewrite (read_lookup _ _ _ He), Hn, Ho.
    by destruct (hd_or None l2), (last_or None l1). }
  destruct Hs' as (Hheap & Hhead & Htail).
  apply seg_app in Hseg as [HA HB]. apply seg_cons in HB as (_ & _ & _ & _ & HC).
  split_and!; [split_and!| |]; [done| | | |done].
  - rewrite Hheap. apply seg_app.
    destruct l2 as [|n l2]; destruct l1 as [|o l1 _] using rev_ind; simpl hd_or in *.
    + done.
    + rewrite last_or_snoc in *. split; [|done].
      apply NoDup_app in Hnd' as (Hnd' & _ & _).
      apply NoDup_app in Hnd' as (_ & Hd & _).
      apply (seg_set_next _ _ _ _ _ (Some x)); [done|].
      intros Hin. apply (Hd o Hin). by apply list_elem_of_singleton.
    + split; [done|]. unfold last_or in *; simpl in *.
      apply (seg_set_prev _ _ (Some x)); [done|].
      by apply NoDup_cons in Hnd' as [? _].
    + rewrite last_or_snoc in *.
      apply NoDup_app in Hnd' as (Hnd1 & Hd & Hnd2).
      apply NoDup_app in Hnd1 as (_ & Hd1 & _).
      apply NoDup_cons in Hnd2 as [Hn2 _].
      assert (Hol : o ∉ l1).
      { intros Hin. apply (Hd1 o Hin). by apply list_elem_of_singleton. }
      assert (Hon : o ∉ n :: l2).
      { apply Hd. apply elem_of_app. right. by apply list_elem_of_singleton. }
      assert (Hnl : n ∉ l1 ++ [o]).
      { intros Hin. apply (Hd n Hin). apply elem_of_cons. by left. }
      split.
      * apply seg_frame; [|done].
        by apply (seg_set_next _ _ _ _ _ (Some x)).
      * apply (seg_set_prev _ _ (Some x)); [|done]. by apply seg_frame.
  - rewrite Hhead, Hhd.
    destruct l1 as [|o l1 _] using rev_ind; [by rewrite hd_or_None|].
    rewrite last_or_snoc. by destruct l1.
  - rewrite Htail, Htl.
    destruct l2 as [|n l2]; simpl hd_or.
    + by rewrite app_nil_r, last_or_None.
    + by rewrite !last_app_cons, last_cons_cons.
Qed.

Lemma remove_absent k s :
  _keys s !! k = None -> inherited k = false -> remove k s = (Undefined, s).
Proof. intros Hk Hi. unfold remove. by rewrite Hk, Hi. Qed.

Lemma plain_not_inherited k : plain k = true -> inherited k = false.
Proof.
  unfold plain, inherited. intros H%bool_decide_eq_true.
  apply bool_decide_eq_false. intros Hin. apply H, elem_of_app. by left.
Qed.

Lemma isSet_absent k s :
  _keys s !! k = None -> inherited k = false -> isSet k s = (Undefined, s).
Proof. intros Hk Hi. unfold isSet. by rewrite Hk, Hi. Qed.

(** ** [get] on a well-formed cache *)

Lemma get_promotes k b s l1 x l2 :
  wf s (l1 ++ x :: l2) ->
  _keys s !! k = Some x ->
  let s' := (get k b s).2 in
  wf s' (l1 ++ l2 ++ [x]) /\
  _keys s' = _keys s /\
  (forall y, key (read s' y) = key (read s y)) /\
  (forall y, value (read s' y) = value (read s y)).
Proof.
  intros ((Hnd & Hseg & Hhd) & Htl & Hix) Hk s'.
  destruct (seg_lookup _ _ _ _ _ _ Hseg) as (e & He & Ho & Hn).
  destruct (NoDup_drop_middle _ _ _ Hnd) as [Hnd' Hx'].
  assert (Hframe : _keys s' = _keys s /\
                   (forall y, key (read s' y) = key (read s y)) /\
                   (forall y, value (read s' y) = value (read s y))).
  { subst s'. unfold get. rewrite Hk. case_decide; [done|]. cbv zeta.
    repeat case_match;
      (split_and!; [done|intros y; by links_only|intros y; by links_only]). }
  destruct Hframe as (Hk' & Hkey & Hval).
  split_and!; try done.
  assert (Hix' : indexed s' (l1 ++ l2 ++ [x])).
  { intros k' y. rewrite Hk', Hkey. unfold indexed in Hix. rewrite Hix.
    rewrite !elem_of_app, elem_of_cons, list_elem_of_singleton. tauto. }
  destruct l2 as [|n l2].
  { (* already the tail *)
    assert (Ht : tail s = Some x) by by rewrite Htl, last_snoc.
    assert (Hs' : s' = s).
    { subst s'. unfold get. rewrite Hk. by rewrite decide_True. }
    rewrite Hs' in *. simpl. by split_and!. }
  simpl in Hn.
  assert (Hlast : exists t L, l1 ++ n :: l2 = L ++ [t] /\ t <> x /\ (t ∉ L) /\
                              tail s = Some t).
  { destruct (last (l1 ++ n :: l2)) as [t|] eqn:Ht.
    - pose proof Ht as Ht'.
      apply last_Some in Ht' as [L HL]. exists t, L. split_and!; [done| | |].
      + intros ->. apply Hx'. rewrite HL. apply elem_of_app. right.
        by apply list_elem_of_singleton.
      + rewrite HL in Hnd'. apply NoDup_app in Hnd' as (_ & Hd & _).
        intros Hin. apply (Hd t Hin). by apply list_elem_of_singleton.
      + rewrite last_app_cons in Ht.
        by rewrite Htl, last_app_cons, last_cons_cons.
    - apply last_None in Ht. by destruct l1. }
  destruct Hlast as (t & L & HL & Htx & HtL & Ht).
  assert (Hxn : x <> n).
  { intros ->. apply Hx'. apply elem_of_app. right. apply elem_of_cons. by left. }
  assert (Hhead : head s = Some x <-> l1 = []).
  { rewrite Hhd. destruct l1 as [|y l1]; [done|]. simpl. split; [|done].
    intros [= ->]. exfalso. apply Hx'. apply elem_of_cons. by left. }
  assert (Hs' : heap s' =
      alter (set_newer (Some x)) t
        (alter (set_older (Some t)) x
          (alter (set_newer None) x
            (match last_or None l1 with
             | Some o => alter (set_newer (Some n)) o
             | None => fun h => h
             end (alter (set_older (last_or None l1)) n (heap s))))) /\
      head s' = hd_error (l1 ++ n :: l2) /\ tail s' = Some x).
  { subst s'. unfold get. rewrite Hk.
    rewrite decide_False by (rewrite Ht; congruence). cbv zeta.
    rewrite (read_lookup _ _ _ He), Hn.
    assert (Hr : forall v, read (if decide (head s = Some x)
                                 then with_head v s else s) x = e).
    { intros v. case_decide; by apply read_lookup. }
    rewrite Hr, Ho. clear Hr.
    set (s1 := write n _ _).
    assert (Hr1 : read s1 x = e).
    { subst s1. rewrite read_write_other by done.
      case_decide; by apply read_lookup. }
    rewrite Hr1, Ho, Hn.
    assert (Ht1 : tail s1 = Some t) by (subst s1; simpl; by case_decide).
    assert (Hh1 : head s1 = hd_error (l1 ++ n :: l2)).
    { subst s1. simpl. case_decide as Hc.
      - apply Hhead in Hc as ->. done.
      - simpl. rewrite Hhd. destruct l1; [by destruct Hc; apply Hhead|done]. }
    assert (Hp1 : heap s1 = alter (set_older (last_or None l1)) n (heap s)).
    { subst s1. simpl. by case_decide. }
    clearbody s1.
    destruct (last_or None l1) as [o|]; simpl; rewrite Ht1; simpl;
      rewrite Hp1; done. }
  destruct Hs' as (Hheap & Hhead' & Htail').
  apply seg_app in Hseg as [HA HB]. apply seg_cons in HB as (_ & _ & _ & _ & HC).
  simpl hd_or in HA.
  assert (Hunlinked : seg
      (match last_or None l1 with
       | Some o => alter (set_newer (Some n)) o
       | None => fun h => h
       end (alter (set_older (last_or None l1)) n (heap s)))
      None (l1 ++ n :: l2) None).
  { apply NoDup_app in Hnd' as (Hnd1 & Hd & Hnd2).
    apply NoDup_cons in Hnd2 as [Hn2 _].
    assert (Hnl : n ∉ l1).
    { intros Hin. apply (Hd n Hin). apply elem_of_cons. by left. }
    apply seg_app. simpl hd_or.
    destruct l1 as [|o l1 _] using rev_ind.
    - unfold last_or; simpl. split; [done|].
      by apply (seg_set_prev _ _ (Some x)).
    - rewrite last_or_snoc in *.
      apply NoDup_app in Hnd1 as (_ & Hd1 & _).
      assert (Hol : o ∉ l1).
      { intros Hin. apply (Hd1 o Hin). by apply list_elem_of_singleton. }
      assert (Hon : o ∉ n :: l2).
      { apply Hd. apply elem_of_app. right. by apply list_elem_of_singleton. }
      split.
      + apply (seg_set_next _ _ _ _ _ (Some x)); [|done]. by apply seg_frame.
      + apply seg_frame; [|done]. by apply (seg_set_prev _ _ (Some x)). }
  assert (Hxlook : forall h0 : list entry, h0 !! x = Some e ->
      alter (set_newer (Some x)) t
        (alter (set_older (Some t)) x (alter (set_newer None) x h0)) !! x
      = Some (Entry (key e) (value e) None (Some t))).
  { intros h0 H0. by rewrite list_lookup_alter_ne, !list_lookup_alter_eq, H0. }
  assert (Hx2 : (match last_or None l1 with
       | Some o => alter (set_newer (Some n)) o
       | None => fun h => h
       end (alter (set_older (last_or None l1)) n (heap s))) !! x = Some e).
  { destruct (last_or None l1) as [o|] eqn:Hlo.
    - rewrite !list_lookup_alter_ne; [done|congruence|].
      intros ->. apply Hx'. apply elem_of_app. left.
      unfold last_or in Hlo. destruct (last l1) as [o'|] eqn:Hl; [|done].
      injection Hlo as ->. apply last_Some in Hl as [l' ->].
      apply elem_of_app. right. by apply list_elem_of_singleton.
    - by rewrite list_lookup_alter_ne by congruence. }
  split_and!; [split_and!| |done].
  - rewrite app_assoc. apply NoDup_app. split_and!; [done| |apply NoDup_singleton].
    intros y Hy ->%list_elem_of_singleton. done.
  - rewrite Hheap, app_assoc. apply seg_app. simpl hd_or. split.
    + rewrite HL. apply (seg_set_next _ _ _ _ _ None); [|done]. rewrite <- HL.
      do 2 (apply seg_frame; [|done]). done.
    + rewrite HL, last_or_snoc. apply seg_cons. eexists.
      split; [by apply Hxlook|]. done.
  - rewrite Hhead'. by destruct l1.
  - by rewrite Htail', !app_assoc, last_snoc.
Qed.

(** After [get(k)] the entry of [k] is the newest: unless it is the only
    entry, a [shift] that follows evicts another one. *)
Lemma get_protects_from_eviction k b s l1 x l2 :
  wf s (l1 ++ x :: l2) ->
  _keys s !! k = Some x ->
  l1 ++ l2 <> [] ->
  exists y, (shift (get k b s).2).1 = Ref y /\ y <> x /\
            hd_error (l1 ++ l2) = Some y.
Proof.
  intros Hwf Hk Hne.
  destruct (get_promotes k b s l1 x l2 Hwf Hk) as (((Hnd & Hseg & Hhd) & _) & _).
  destruct Hwf as ((Hnd0 & _) & _).
  apply NoDup_drop_middle in Hnd0 as [_ Hx].
  rewrite app_assoc in Hnd, Hseg, Hhd.
  destruct (l1 ++ l2) as [|y l] eqn:Hl; [done|].
  exists y. destruct (shift_ordered (get k b s).2 y (l ++ [x])) as (Hres & _).
  { by split_and!. }
  split_and!; [done| |done].
  intros ->. apply Hx. apply elem_of_cons. by left.
Qed.

(** ** [put] of a key that is not in the cache *)

Lemma put_link_wf k v s l :
  wf s l -> _keys s !! k = None ->
  wf (put_link k v s).2 (l ++ [length (heap s)]).
Proof.
  intros (Hord & Htl & Hix) Hk.
  destruct (put_link_ordered k v s l Hord Htl)
    as (_ & Hord' & Htl' & Hk' & _ & _ & _ & Hkn & _ & Hkey & _).
  split_and!; [done|by rewrite last_snoc|].
  apply (indexed_insert s _ l k); [done|done| |done|done|].
  - intros Hn%(ordered_allocated s); [lia|done].
  - intros y Hy. apply Hkey. by apply (ordered_allocated s l).
Qed.

Lemma put_room k v s l :
  wf s l -> _keys s !! k = None -> _currentSize s <> _cacheSize s ->
  let n := length (heap s) in
  let s' := (put k v s).2 in
  (put k v s).1 = Null /\
  wf s' (l ++ [n]) /\
  _keys s' = <[k := n]> (_keys s) /\
  _currentSize s' = _currentSize s + 1 /\
  _cacheSize s' = _cacheSize s /\
  length (heap s') = S (length (heap s)) /\
  key (read s' n) = k /\ value (read s' n) = v /\
  (forall y, (y < n)%nat -> key (read s' y) = key (read s y)) /\
  (forall y, (y < n)%nat -> value (read s' y) = value (read s y)).
Proof.
  intros Hwf Hk Hsz n s'.
  pose proof (put_link_wf k v s l Hwf Hk) as Hwf'.
  destruct Hwf as (Hord & Htl & _).
  destruct (put_link_ordered k v s l Hord Htl)
    as (_ & _ & _ & Hk' & Hsz' & Hcap' & Hlen & Hkn & Hvn & Hkey & Hval).
  subst s'. unfold put.
  destruct (put_link k v s) as [e s1]. simpl in *.
  rewrite decide_False by congruence. simpl.
  split_and!; try done. congruence.
Qed.

Lemma put_evict k v s x l :
  wf s (x :: l) -> _keys s !! k = None -> _currentSize s = _cacheSize s ->
  let n := length (heap s) in
  let s' := (put k v s).2 in
  (put k v s).1 = Ref x /\
  wf s' (l ++ [n]) /\
  _keys s' = delete (key (read s x)) (<[k := n]> (_keys s)) /\
  _currentSize s' = _currentSize s /\
  _cacheSize s' = _cacheSize s /\
  length (heap s') = S (length (heap s)) /\
  key (read s' n) = k /\ value (read s' n) = v /\
  (forall y, (y < n)%nat -> key (read s' y) = key (read s y)) /\
  (forall y, (y < n)%nat -> value (read s' y) = value (read s y)).
Proof.
  intros Hwf Hk Hsz n s'.
  pose proof (put_link_wf k v s _ Hwf Hk) as Hwf'.
  assert (Hxn : (x < n)%nat).
  { destruct Hwf as (Hord & _). apply (ordered_allocated s (x :: l)); [done|].
    apply elem_of_cons. by left. }
  destruct Hwf as (Hord & Htl & _).
  destruct (put_link_ordered k v s _ Hord Htl)
    as (_ & _ & Htl' & Hk' & Hsz' & Hcap' & Hlen & Hkn & Hvn & Hkey & Hval).
  subst s'. unfold put.
  destruct (put_link k v s) as [e s1]. simpl in *.
  rewrite decide_True by congruence.
  destruct Hwf' as (Hord1 & _ & Hix1).
  destruct (shift_ordered s1 x (l ++ [n]) Hord1)
    as (Hres & Hord2 & Hk2 & Htl2 & Hsz2 & Hcap2 & Hlen2 & Hkey2 & Hval2 & _).
  split_and!.
  - done.
  - split_and!; [done|by rewrite Htl2, Htl', last_snoc|].
    apply (indexed_delete s1 _ [] x (l ++ [n])); [by destruct Hord1|done|done|done].
  - by rewrite Hk2, Hk', Hkey.
  - congruence.
  - congruence.
  - congruence.
  - by rewrite Hkey2.
  - by rewrite Hval2.
  - intros y Hy. by rewrite Hkey2, Hkey.
  - intros y Hy. by rewrite Hval2, Hval.
Qed.

(** ** Filling a cache that has room *)


Lemma put_each_room kvs : forall s l,
  wf s l ->
  _currentSize s + Z.of_nat (length kvs) <= _cacheSize s ->
  NoDup kvs.*1 ->
  (forall k, k ∈ kvs.*1 -> _keys s !! k = None) ->
  let h := length (heap s) in
  let s' := (put_each kvs s).2 in
  (put_each kvs s).1 = replicate (length kvs) Null /\
  wf s' (l ++ seq h (length kvs)) /\
  _currentSize s' = _currentSize s + Z.of_nat (length kvs) /\
  _cacheSize s' = _cacheSize s /\
  length (heap s') = (h + length kvs)%nat /\
  (forall y, (y < h)%nat ->
     key (read s' y) = key (read s y) /\ value (read s' y) = value (read s y)) /\
  (forall i k v, kvs !! i = Some (k, v) ->
     key (read s' (h + i)) = k /\ value (read s' (h + i)) = v).
Proof.
  induction kvs as [|[k v] kvs IH]; intros s l Hwf Hsz Hnd Hfresh h s'.
  - subst s'. simpl. rewrite app_nil_r, Z.add_0_r, Nat.add_0_r.
    split_and!; try done.
  - simpl in Hsz, Hnd. apply NoDup_cons in Hnd as [Hk Hnd].
    assert (Hkf : _keys s !! k = None).
    { apply Hfresh. simpl. apply elem_of_cons. by left. }
    destruct (put_room k v s l Hwf Hkf ltac:(lia))
      as (Hr & Hwf1 & Hk1 & Hsz1 & Hcap1 & Hlen1 & Hkn & Hvn & Hkey1 & Hval1).
    subst s'. simpl. destruct (put k v s) as [r s1]. simpl in *. subst r.
    specialize (IH s1 (l ++ [h]) Hwf1).
    destruct IH as (Hrs & Hwf2 & Hsz2 & Hcap2 & Hlen2 & Hold2 & Hnew2).
    + lia.
    + done.
    + intros k' Hk'. rewrite Hk1, lookup_insert_ne.
      * apply Hfresh. apply elem_of_cons. by right.
      * intros ->. done.
    + destruct (put_each kvs s1) as [rs s2]. simpl in *.
      rewrite Hlen1 in *. fold h in Hwf2, Hlen2, Hold2, Hnew2.
      split_and!.
      * by rewrite Hrs.
      * by rewrite <- app_assoc in Hwf2.
      * lia.
      * congruence.
      * lia.
      * intros y Hy. destruct (Hold2 y ltac:(lia)) as [-> ->].
        split; [by apply Hkey1|by apply Hval1].
      * intros [|i] k' v' Hi; simpl in Hi.
        -- injection Hi as <- <-. rewrite Nat.add_0_r.
           destruct (Hold2 h ltac:(lia)) as [-> ->]. done.
        -- replace (h + S i)%nat with (S h + i)%nat by lia. by apply Hnew2.
Qed.

(** ** The constructor *)

Lemma MAX_VALUE_ge_2 : 2 <= MAX_VALUE.
Proof. by vm_compute. Qed.

Lemma _toNumber_floor parsed : 2 <= _toNumber parsed 2 2 MAX_VALUE <= MAX_VALUE.
Proof.
  pose proof MAX_VALUE_ge_2.
  unfold _toNumber. destruct parsed as [| |q]; [lia|lia|].
  destruct (Z.ltb_spec MAX_VALUE (toFixed0 q)); [lia|].
  destruct (Z.ltb_spec (toFixed0 q) 2); lia.
Qed.

Lemma toFixed0_integer n : toFixed0 (inject_Z n) = n.
Proof.
  unfold toFixed0.
  assert (Hhalf : forall m, Qfloor (inject_Z m + (1 # 2)) = m).
  { intros m. unfold Qfloor, Qplus, inject_Z; simpl.
    rewrite Z.mul_1_r. replace (m * 2 + 1) with (1 + m * 2) by lia.
    rewrite Z.div_add by lia. done. }
  destruct (Qle_bool 0 (inject_Z n)); [apply Hhalf|].
  rewrite <- inject_Z_opp, Hhalf. lia.
Qed.

(** Every integer capacity from 2 up to [Number.MAX_VALUE] is the
    capacity of some fresh cache. *)
Lemma constructor_integer n :
  2 <= n <= MAX_VALUE -> limit_get (CacheLRU (Finite (inject_Z n))) = n.
Proof.
  intros Hn. unfold limit_get, CacheLRU, _toNumber, _minCacheSize; simpl.
  rewrite toFixed0_integer.
  destruct (Z.ltb_spec MAX_VALUE n); [lia|].
  destruct (Z.ltb_spec n 2); lia.
Qed.

Lemma CacheLRU_wf parsed : wf (CacheLRU parsed) [].
Proof.
  assert (Hix : indexed (CacheLRU parsed) []).
  { intros k x. simpl. rewrite lookup_empty. split; [done|].
    intros [Hx _]. by apply elem_of_nil in Hx. }
  unfold wf, ordered. split_and!; try done. apply NoDup_nil_2.
Qed.

Lemma get_returns k b s x :
  _keys s !! k = Some x ->
  (get k b s).1 = if b then Ref x else value (read s x).
Proof.
  intros Hk. unfold get. rewrite Hk.
  case_decide; [done|]. simpl. unfold get_result.
  destruct b; [done|].
  destruct (newer (read s x)) as [n|]; [case_decide|];
    (destruct (older _) as [o|]; destruct (tail _) as [t|]; by links_only).
Qed.

(** ** The order list as [iterate] sees it *)

Lemma ordered_length s l : ordered s l -> (length l <= length (heap s))%nat.
Proof.
  intros Hord.
  replace (length (heap s)) with (length (seq 0 (length (heap s))))
    by apply length_seq.
  apply submseteq_length, NoDup_submseteq; [by destruct Hord|].
  intros x Hx. apply elem_of_seq.
  pose proof (ordered_allocated s l x Hord Hx). lia.
Qed.

Lemma order_ordered s l : ordered s l -> order s = l.
Proof.
  intros Hord. pose proof (ordered_length s l Hord) as Hlen.
  destruct Hord as (_ & Hseg & Hhd).
  unfold order. rewrite Hhd. apply (walk_seg s None); [done|lia].
Qed.

Lemma ordered_unique s l l' : ordered s l -> ordered s l' -> l = l'.
Proof. intros H H'. by rewrite <- (order_ordered s l), <- (order_ordered s l'). Qed.

(** ** Sizes

    What each method does to [_currentSize] and [_cacheSize], in any
    state. *)

Lemma shift_sizes s :
  _currentSize (shift s).2 = _currentSize s /\ _cacheSize (shift s).2 = _cacheSize s.
Proof.
  unfold shift. destruct (head s) as [x|]; [|done].
  by destruct (newer (read s x)).
Qed.

Lemma times_shift_sizes n s :
  _currentSize (times n (fun s => (shift s).2) s) = _currentSize s /\
  _cacheSize (times n (fun s => (shift s).2) s) = _cacheSize s.
Proof.
  unfold times. induction (Z.to_nat n) as [|m [IHsz IHcap]]; [done|]. simpl.
  destruct (shift_sizes (Nat.iter m (fun s0 => (shift s0).2) s)) as [-> ->].
  done.
Qed.

Lemma put_link_sizes k v s :
  _currentSize (put_link k v s).2 = _currentSize s /\
  _cacheSize (put_link k v s).2 = _cacheSize s.
Proof. unfold put_link, alloc. simpl. by destruct (tail s). Qed.

Lemma put_sizes k v s :
  _cacheSize (put k v s).2 = _cacheSize s /\
  _currentSize (put k v s).2 =
    if decide (_currentSize s = _cacheSize s) then _currentSize s
    else _currentSize s + 1.
Proof.
  destruct (put_link_sizes k v s) as [Hsz Hcap].
  unfold put. destruct (put_link k v s) as [e s1]. simpl in Hsz, Hcap.
  rewrite Hsz, Hcap. case_decide.
  - destruct (shift_sizes s1) as [-> ->]. done.
  - done.
Qed.

Lemma get_sizes k b s :
  _currentSize (get k b s).2 = _currentSize s /\ _cacheSize (get k b s).2 = _cacheSize s.
Proof.
  unfold get. destruct (_keys s !! k) as [x|]; [|done].
  case_decide; [done|]. cbv zeta.
  destruct (newer (read s x)) as [n|]; [case_decide|];
    (destruct (older _) as [o|]; destruct (tail _) as [t|]; done).
Qed.

Lemma remove_sizes k s :
  _cacheSize (remove k s).2 = _cacheSize s /\
  _currentSize (remove k s).2 <= _currentSize s.
Proof.
  unfold remove. destruct (_keys s !! k) as [x|]; cbv zeta.
  - destruct (newer _), (older _); simpl; split; lia.
  - destruct (inherited k); simpl; split; lia.
Qed.

Lemma set_sizes k v s :
  _cacheSize (set k v s).2 = _cacheSize s /\
  _currentSize (set k v s).2 =
    if decide (is_Some (_keys s !! k) \/ _currentSize s = _cacheSize s)
    then _currentSize s else _currentSize s + 1.
Proof.
  unfold set. pose proof (get_sizes k true s) as [Hsz Hcap].
  destruct (_keys s !! k) as [x|] eqn:Hk.
  - pose proof (get_returns k true s x Hk) as Hr.
    destruct (get k true s) as [r s1]. simpl in *. subst r. simpl. done.
  - unfold get in *. rewrite Hk in *. simpl.
    pose proof (put_sizes k v s) as [Hc Hs].
    destruct (put k v s) as [r s1]. simpl in Hc, Hs.
    assert (Hgoal : _cacheSize s1 = _cacheSize s /\
      _currentSize s1 =
        if decide (is_Some (@None nat) \/ _currentSize s = _cacheSize s)
        then _currentSize s else _currentSize s + 1).
    { split; [done|]. rewrite Hs.
      destruct (decide (_currentSize s = _cacheSize s)).
      - by rewrite decide_True by by right.
      - rewrite decide_False; [done|]. by intros [[? ?]|?]. }
    by destruct r.
Qed.

(** Apart from assignments to [limit], no call takes the count above the
    capacity. *)
Lemma perform_bounded g c s :
  is_limit c = false ->
  2 <= _cacheSize s -> _currentSize s <= _cacheSize s ->
  2 <= _cacheSize (perform g c s) /\
  _currentSize (perform g c s) <= _cacheSize (perform g c s).
Proof.
  intros Hc Hcap Hsz. destruct c as [k v|k v|k|k| | |]; try done; simpl.
  - destruct (put_sizes k v s) as [-> ->]. case_decide; lia.
  - destruct (set_sizes k v s) as [-> ->]. case_decide; lia.
  - destruct (get_sizes k false s) as [-> ->]. lia.
  - destruct (remove_sizes k s) as [-> ?]. lia.
  - destruct (shift_sizes s) as [-> ->]. lia.
  - lia.
Qed.

Lemma run_bounded g cs parsed :
  forallb (fun c => negb (is_limit c)) cs = true ->
  let s := run g cs (CacheLRU parsed) in
  2 <= _cacheSize s /\ _currentSize s <= _cacheSize s.
Proof.
  intros Hcs. simpl. unfold run.
  assert (Hinit : 2 <= _cacheSize (CacheLRU parsed) /\
                  _currentSize (CacheLRU parsed) <= _cacheSize (CacheLRU parsed)).
  { pose proof (_toNumber_floor parsed). simpl. unfold _minCacheSize. lia. }
  revert Hinit. generalize (CacheLRU parsed) as s.
  induction cs as [|c cs IH]; intros s [Hcap Hsz]; [done|].
  simpl in Hcs. apply andb_prop in Hcs as [Hc Hcs].
  simpl. apply IH; [done|].
  apply perform_bounded; [by destruct (is_limit c)|done|done].
Qed.

(** ** The capacity stored by the constructor and by the setter *)

Lemma constructor_clamps parsed :
  2 <= limit_get (CacheLRU parsed) /\
  (match parsed with
   | NaN | Infinity _ => limit_get (CacheLRU parsed) = 2
   | Finite q => toFixed0 q < 2 -> limit_get (CacheLRU parsed) = 2
   end).
Proof.
  split; [apply _toNumber_floor|].
  destruct parsed as [| |q]; [done|done|]. intros Hq.
  unfold limit_get, CacheLRU, _toNumber, _minCacheSize; simpl.
  pose proof MAX_VALUE_ge_2.
  destruct (Z.ltb_spec MAX_VALUE (toFixed0 q)); [lia|].
  destruct (Z.ltb_spec (toFixed0 q) 2); lia.
Qed.

Lemma limit_set_stores g parsed s :
  limit_get (state_of (limit_set g parsed s)) = clamped parsed /\
  2 <= clamped parsed /\
  (match parsed with
   | NaN | Infinity _ => clamped parsed = 2
   | Finite n => n < 2 -> clamped parsed = 2
   end).
Proof.
  split_and!.
  - unfold limit_set. fold (clamped parsed). cbv zeta.
    case_decide; [done|]. destruct g; [done|]. simpl.
    unfold limit_get. by destruct (times_shift_sizes
      (_currentSize s - clamped parsed) (with_cacheSize (clamped parsed) s))
      as [_ ->].
  - unfold clamped, _minCacheSize. destruct parsed as [| |n]; [lia|lia|].
    destruct (Z.ltb_spec n 2); lia.
  - unfold clamped, _minCacheSize. destruct parsed as [| |n]; [done|done|].
    intros Hn. destruct (Z.ltb_spec n 2); lia.
Qed.

(** The setter never changes the count, whatever it evicts. *)
Lemma limit_set_count g parsed s :
  _currentSize (state_of (limit_set g parsed s)) = _currentSize s.
Proof.
  unfold limit_set. cbv zeta. case_decide; [done|]. destruct g; [done|]. simpl.
  by destruct (times_shift_sizes (_currentSize s - clamped parsed)
                 (with_cacheSize (clamped parsed) s)) as [-> _].
Qed.

(** With lodash loaded the setter always returns; without it, it throws
    exactly when the count differs from the stored capacity. *)
Lemma limit_set_completion g parsed s :
  match g with
  | Lodash => exists s', limit_set Lodash parsed s = Returns s'
  | Unbound =>
      if decide (_currentSize s = clamped parsed)
      then limit_set Unbound parsed s = Returns (with_cacheSize (clamped parsed) s)
      else limit_set Unbound parsed s =
             Throws "ReferenceError" (with_cacheSize (clamped parsed) s)
  end.
Proof.
  unfold limit_set. fold (clamped parsed). cbv zeta. simpl.
  destruct g.
  - case_decide as H1; case_decide as H2; try done; lia.
  - case_decide; by eexists.
Qed.

(** ** Traversal and contents *)

Lemma visit_walk fuel s cur :
  visit newer fuel s cur = contents s (walk fuel s cur).
Proof.
  revert cur. induction fuel as [|fuel IH]; intros [x|]; simpl; try done.
  by rewrite IH.
Qed.

Lemma visit_older_seg s l n fuel :
  seg (heap s) None l n -> (length l < fuel)%nat ->
  visit older fuel s (last l) = reverse (contents s l).
Proof.
  revert n fuel. induction l as [|y l IH] using rev_ind; intros n fuel Hs Hf.
  - by destruct fuel.
  - apply seg_app in Hs as [Hl Hy]. simpl in Hl.
    apply seg_cons in Hy as (e & He & Ho & _).
    rewrite length_app in Hf. simpl in Hf.
    destruct fuel as [|fuel]; [lia|].
    rewrite last_snoc. simpl. rewrite (read_lookup _ _ _ He), Ho, last_or_None.
    unfold contents. rewrite fmap_app, reverse_app. simpl.
    rewrite (read_lookup _ _ _ He). f_equal.
    apply (IH (Some y)); [done|lia].
Qed.

Lemma contents_ext s s' l :
  (forall y, y ∈ l -> key (read s' y) = key (read s y) /\
                      value (read s' y) = value (read s y)) ->
  contents s' l = contents s l.
Proof.
  intros H. unfold contents. apply list_fmap_ext. intros i y Hy.
  destruct (H y) as [-> ->]; [|done]. by eapply list_elem_of_lookup_2.
Qed.

Lemma contents_app s l1 l2 : contents s (l1 ++ l2) = contents s l1 ++ contents s l2.
Proof. unfold contents. by rewrite fmap_app. Qed.

Lemma contents_keys s l : (contents s l).*1 = (fun x => key (read s x)) <$> l.
Proof. unfold contents. rewrite <- list_fmap_compose. done. Qed.

Lemma iterate_contents_aux s l fuel :
  wf s l -> (length l < fuel)%nat ->
  iterate false fuel s = contents s l /\
  iterate true fuel s = reverse (contents s l).
Proof.
  intros ((_ & Hseg & Hhd) & Htl & _) Hf. split.
  - unfold iterate. rewrite visit_walk, Hhd.
    by rewrite (walk_seg s None l fuel).
  - unfold iterate. rewrite Htl. by apply (visit_older_seg s l None).
Qed.

Lemma put_room_contents k v s l :
  wf s l -> _keys s !! k = None -> _currentSize s <> _cacheSize s ->
  contents (put k v s).2 (l ++ [length (heap s)]) = contents s l ++ [(k, v)].
Proof.
  intros Hwf Hk Hroom.
  destruct (put_room k v s l Hwf Hk Hroom)
    as (_ & _ & _ & _ & _ & _ & Hkn & Hvn & Hkey & Hval).
  rewrite contents_app. simpl. rewrite Hkn, Hvn. f_equal.
  apply contents_ext. intros y Hy.
  assert (y < length (heap s))%nat
    by (destruct Hwf as (Hord & _); by apply (ordered_allocated s l)).
  by rewrite Hkey, Hval.
Qed.

Lemma put_evict_contents k v s x l :
  wf s (x :: l) -> _keys s !! k = None -> _currentSize s = _cacheSize s ->
  contents (put k v s).2 (l ++ [length (heap s)]) = contents s l ++ [(k, v)] /\
  key (read (put k v s).2 x) = key (read s x) /\
  value (read (put k v s).2 x) = value (read s x).
Proof.
  intros Hwf Hk Hfull.
  destruct (put_evict k v s x l Hwf Hk Hfull)
    as (_ & _ & _ & _ & _ & _ & Hkn & Hvn & Hkey & Hval).
  assert (Hlt : forall y, y ∈ x :: l -> (y < length (heap s))%nat).
  { intros y Hy. destruct Hwf as (Hord & _). by apply (ordered_allocated s (x :: l)). }
  assert (Hx : (x < length (heap s))%nat) by (apply Hlt, elem_of_cons; by left).
  split_and!; [|by apply Hkey|by apply Hval].
  rewrite contents_app. simpl. rewrite Hkn, Hvn. f_equal.
  apply contents_ext. intros y Hy.
  assert (y < length (heap s))%nat by (apply Hlt, elem_of_cons; by right).
  by rewrite Hkey, Hval.
Qed.

Lemma put_each_contents kvs s l :
  wf s l ->
  _currentSize s + Z.of_nat (length kvs) <= _cacheSize s ->
  NoDup kvs.*1 ->
  (forall k, k ∈ kvs.*1 -> _keys s !! k = None) ->
  contents (put_each kvs s).2 (l ++ seq (length (heap s)) (length kvs)) =
    contents s l ++ kvs.
Proof.
  intros Hwf Hsz Hnd Hfresh.
  destruct (put_each_room kvs s l Hwf Hsz Hnd Hfresh)
    as (_ & _ & _ & _ & _ & Hold & Hnew).
  rewrite contents_app. f_equal.
  - apply contents_ext. intros y Hy. apply Hold.
    destruct Hwf as (Hord & _). by apply (ordered_allocated s l).
  - apply list_eq. intros i. unfold contents. rewrite list_lookup_fmap.
    destruct (kvs !! i) as [[k v]|] eqn:Hi.
    + rewrite lookup_seq_lt by by eapply lookup_lt_Some. simpl.
      destruct (Hnew i k v Hi) as [-> ->]. done.
    + apply lookup_ge_None in Hi. by rewrite lookup_seq_ge.
Qed.


Lemma put_evict_links k v s x l :
  wf s (x :: l) -> _keys s !! k = None -> _currentSize s = _cacheSize s ->
  newer (read (put k v s).2 x) = None /\ older (read (put k v s).2 x) = None.
Proof.
  intros (Hord & Htl & _) Hk Hfull.
  destruct (put_link_ordered k v s _ Hord Htl)
    as (_ & Hord1 & _ & _ & Hsz' & Hcap' & _).
  unfold put. destruct (put_link k v s) as [e s1]. simpl in *.
  rewrite decide_True by congruence.
  by destruct (shift_ordered s1 x (l ++ [length (heap s)]) Hord1)
    as (_ & _ & _ & _ & _ & _ & _ & _ & _ & ? & ?).
Qed.

(** When the only entry is evicted, [tail] keeps referring to it. *)
Lemma shift_sole_entry s x :
  wf s [x] -> head (shift s).2 = None /\ tail (shift s).2 = Some x.
Proof.
  intros (Hord & Htl & _).
  destruct (shift_ordered s x [] Hord) as (_ & (_ & _ & Hhd) & _ & Htl' & _).
  split; [done|]. by rewrite Htl', Htl.
Qed.

(** ** Claims *)


(** C6.  Idempotent promotion.  When [k] is in the index, a second
    [get(k)] right after the first returns the same value and leaves the
    whole cache (arena, index, [head], [tail], sizes) exactly as the
    first call left it: after the first call the entry is the tail, so
    the second call takes the early return and relinks nothing.  In
    particular the order list is the same. *)
Theorem get_twice k returnEntry s x :
  _keys s !! k = Some x ->
  let once := get k returnEntry s in
  let twice := get k returnEntry once.2 in
  tail once.2 = Some x /\
  twice.1 = once.1 /\
  twice.2 = once.2 /\
  order twice.2 = order once.2.
Proof.
  intros Hk once twice.
  assert (Hkeys : _keys once.2 = _keys s /\ tail once.2 = Some x /\
                  once.1 = get_result returnEntry x once.2).
  { subst once. unfold get. rewrite Hk. case_decide as Ht; [done|]. cbv zeta.
    destruct (newer (read s x)) as [n|]; [case_decide|];
      (destruct (older _) as [o|]; destruct (tail _) as [t|]; done). }
  destruct Hkeys as (Hkeys & Htail & Hres).
  assert (Htwice : twice = (get_result returnEntry x once.2, once.2)).
  { subst twice. unfold get at 1. rewrite Hkeys, Hk.
    by rewrite decide_True. }
  rewrite Htwice. simpl. by rewrite Hres.
Qed.

(** C7 on the code: [remove] of a key that was never set.  The cache
    holds [a] and [b]; ['constructor'] is not in the index, but the
    lookup [_keys[key]] finds the function that every object inherits
    under that name, and [if (!entry) return;] lets it through.  The call
    returns [undefined], yet it clears [head] and [tail], so that
    [iterate] meets nothing in either direction and [shift] finds nothing
    to evict, and lowers [_currentSize] to 1, while the index still binds
    [a] and [b].  On a fresh cache the same call takes [_currentSize] to
    -1. *)
Theorem remove_inherited_name :
  let r := remove "constructor" cache_ab in
  let fresh := CacheLRU (Finite (2 # 1)) in
  _keys cache_ab !! "constructor" = None /\
  iterate false 3 cache_ab = [("a", Num 1); ("b", Num 2)] /\
  _currentSize cache_ab = 2 /\
  r.1 = Undefined /\
  r.2 <> cache_ab /\
  head r.2 = None /\ tail r.2 = None /\
  iterate false 3 r.2 = [] /\ iterate true 3 r.2 = [] /\
  (shift r.2).1 = Undefined /\
  _currentSize r.2 = 1 /\
  _keys r.2 = _keys cache_ab /\
  (isSet "a" r.2).1 = Ref 0%nat /\ (isSet "b" r.2).1 = Ref 1%nat /\
  (remove "constructor" fresh).1 = Undefined /\
  _currentSize (remove "constructor" fresh).2 = -1.
Proof.
  cbv zeta. split_and!; by vm_compute.
Qed.

(** C8, as the code has it.  [isSet] returns what the index holds for
    the key, which is never a boolean: the entry object, truthy, when the
    key is set, and [undefined], falsy, when it is not set and is not a
    name the index object answers for from its prototype.  For these keys
    the result is truthy exactly when the key is in the index.  For every
    key the call leaves the cache, and so the order list, untouched. *)
Theorem isSet_reports k s :
  (forall x, _keys s !! k = Some x ->
     (isSet k s).1 = Ref x /\ truthy (isSet k s).1 = true) /\
  (_keys s !! k = None -> plain k = true ->
     (isSet k s).1 = Undefined /\ truthy (isSet k s).1 = false) /\
  (plain k = true -> (truthy (isSet k s).1 = true <-> is_Some (_keys s !! k))) /\
  (is_Some (_keys s !! k) \/ plain k = true -> forall b, (isSet k s).1 <> Bool b) /\
  (isSet k s).2 = s /\
  order (isSet k s).2 = order s.
Proof.
  unfold isSet. cbn [fst snd].
  split; [by intros x ->|].
  split; [by intros -> ->%plain_not_inherited|].
  split; [|split; [|done]].
  - intros ->%plain_not_inherited. destruct (_keys s !! k); simpl; split;
      first [done | by intros [? ?] | by eexists].
  - intros _ b. destruct (_keys s !! k); [done|]. by destruct (inherited k).
Qed.

(** C10 on the code: [shift] on a cache that holds an entry.  At capacity
    2, [put(a, 1)] followed by [shift()] evicts [a] but leaves [tail]
    referring to it, unlike the branch of [remove] for the only entry,
    which clears both ends; the descending [iterate] still meets [a].
    [put(b, 2)] then links [b] behind the evicted entry and leaves [head]
    undefined: the cache holds [b], which is set and yields its value,
    but the ascending [iterate] meets nothing and [shift()] returns
    [undefined] and removes nothing.  [_currentSize] is 1 after the first
    [shift] and 2 after the [put], with one key in the index. *)
Theorem shift_misses_entry :
  let s0 := CacheLRU (Finite (2 # 1)) in
  let s1 := (put "a" (Num 1) s0).2 in
  let s2 := (shift s1).2 in
  let s3 := (put "b" (Num 2) s2).2 in
  (shift s1).1 = Ref 0%nat /\
  head s2 = None /\ tail s2 = Some 0%nat /\
  iterate false 3 s2 = [] /\ iterate true 3 s2 = [("a", Num 1)] /\
  _keys s2 = ∅ /\ _currentSize s2 = 1 /\
  (put "b" (Num 2) s2).1 = Null /\
  _keys s3 = {[ "b" := 1%nat ]} /\
  (isSet "b" s3).1 = Ref 1%nat /\ (get "b" false s3).1 = Num 2 /\
  head s3 = None /\ tail s3 = Some 1%nat /\
  iterate false 3 s3 = [] /\
  iterate true 3 s3 = [("b", Num 2); ("a", Num 1)] /\
  shift s3 = (Undefined, s3) /\
  _currentSize s3 = 2.
Proof. cbv zeta. split_and!; by vm_compute. Qed.


(** ** The scenarios are well formed *)

Lemma put_each_fresh_wf parsed kvs :
  Z.of_nat (length kvs) <= limit_get (CacheLRU parsed) ->
  NoDup kvs.*1 ->
  wf (put_each kvs (CacheLRU parsed)).2 (seq 0 (length kvs)).
Proof.
  intros Hlen Hnd.
  destruct (put_each_room kvs (CacheLRU parsed) [] (CacheLRU_wf parsed))
    as (_ & Hwf & _); [done|done| |done].
  intros k _. apply lookup_empty.
Qed.

Lemma cache_ab_wf : wf cache_ab [0; 1]%nat.
Proof.
  apply (put_each_fresh_wf _ [("a", Num 1); ("b", Num 2)]); [by vm_compute|].
  apply (bool_decide_unpack _). by vm_compute.
Qed.

Lemma cache_abc_wf : wf cache_abc [0; 1; 2]%nat.
Proof.
  apply (put_each_fresh_wf _ [("a", Num 1); ("b", Num 2); ("c", Num 3)]);
    [by vm_compute|].
  apply (bool_decide_unpack _). by vm_compute.
Qed.

(** ** Witnesses and scenarios *)


Lemma get_twice_witness :
  _keys cache_ab !! "a" = Some 0%nat /\
  get "a" false (get "a" false cache_ab).2 = get "a" false cache_ab.
Proof.
  split; [reflexivity|].
  destruct (get_twice "a" false cache_ab 0%nat eq_refl) as (_ & H1 & H2 & _).
  apply injective_projections; [exact H1|exact H2].
Defined.

Lemma isSet_reports_witness :
  _keys cache_ab !! "a" = Some 0%nat /\
  _keys cache_ab !! "z" = None /\
  plain "z" = true /\
  (isSet "a" cache_ab).1 = Ref 0%nat /\
  (isSet "z" cache_ab).1 = Undefined /\
  (isSet "z" cache_ab).1 <> Bool false.
Proof.
  destruct (isSet_reports "a" cache_ab) as (Hset & _).
  destruct (isSet_reports "z" cache_ab) as (_ & Hunset & _ & Hbool & _).
  destruct (Hset 0%nat eq_refl) as [Ha _].
  destruct (Hunset eq_refl eq_refl) as [Hz _].
  split_and!; [reflexivity|reflexivity|reflexivity|exact Ha|exact Hz|].
  exact (Hbool (or_intror eq_refl) false).
Defined.


(** C4.  The scenario at capacity 2.  After [put(x, 1); put(y, 2)],
    [get(x)] returns 1 and makes the entry of [x] the tail, [y] becoming
    the head; [put(z, 3)] then returns the entry of [y], evicted, and the
    cache holds exactly [x: 1] and [z: 3], in the index and in both
    directions of [iterate]. *)
Theorem scenario_capacity_2 :
  let s0 := CacheLRU (Finite (2 # 1)) in
  let s1 := (put "x" (Num 1) s0).2 in
  let s2 := (put "y" (Num 2) s1).2 in
  let got := get "x" false s2 in
  let evicted := put "z" (Num 3) got.2 in
  let s := evicted.2 in
  limit_get s0 = 2 /\
  (put "x" (Num 1) s0).1 = Null /\ (put "y" (Num 2) s1).1 = Null /\
  iterate false 3 s2 = [("x", Num 1); ("y", Num 2)] /\
  got.1 = Num 1 /\
  tail got.2 = _keys got.2 !! "x" /\
  iterate false 3 got.2 = [("y", Num 2); ("x", Num 1)] /\
  (exists y, evicted.1 = Ref y /\ key (read s y) = "y" /\ value (read s y) = Num 2) /\
  _keys s = {[ "x" := 0%nat; "z" := 2%nat ]} /\
  (isSet "y" s).1 = Undefined /\
  iterate false 3 s = [("x", Num 1); ("z", Num 3)] /\
  iterate true 3 s = [("z", Num 3); ("x", Num 1)] /\
  (get "x" false s).1 = Num 1 /\ (get "z" false s).1 = Num 3 /\
  _currentSize s = 2.
Proof.
  cbv zeta. split_and!; try by vm_compute.
  exists 1%nat. by vm_compute.
Qed.

(** C3 on the code, with lodash loaded: the cache holds [a, b, c, d, e]
    at capacity 5; assigning [limit = 3] stores the capacity 3 and calls
    [shift] twice, which evicts [a] and [b] and leaves [c, d, e] with [c]
    at the head; but [_currentSize] is still 5, not 3.  Without a global
    [_] the assignment throws after storing the capacity and evicts
    nothing. *)
Theorem shrink_leaves_count :
  iterate false 6 cache_abcde =
    [("a", Num 1); ("b", Num 2); ("c", Num 3); ("d", Num 4); ("e", Num 5)] /\
  _currentSize cache_abcde = 5 /\ limit_get cache_abcde = 5 /\
  (exists s,
     limit_set Lodash (Finite 3) cache_abcde = Returns s /\
     iterate false 6 s = [("c", Num 3); ("d", Num 4); ("e", Num 5)] /\
     _keys s = {[ "c" := 2%nat; "d" := 3%nat; "e" := 4%nat ]} /\
     head s = Some 2%nat /\ key (read s 2) = "c" /\
     limit_get s = 3 /\
     _currentSize s = 5) /\
  (exists s,
     limit_set Unbound (Finite 3) cache_abcde = Throws "ReferenceError" s /\
     iterate false 6 s = iterate false 6 cache_abcde /\
     limit_get s = 3 /\
     _currentSize s = 5).
Proof.
  split_and!; try by vm_compute.
  - eexists. split; [reflexivity|]. split_and!; by vm_compute.
  - eexists. split; [reflexivity|]. split_and!; by vm_compute.
Qed.

(** C1 on the code: after five [put]s at capacity 5, assigning
    [limit = 3] leaves [_currentSize] at 5 above the capacity 3, whether
    lodash is loaded or not; a later [put] then finds the two unequal,
    counts up to 6 and evicts nothing.  In general the setter stores the
    clamped capacity and leaves the count as it was, so the count ends
    above the capacity whenever it was above the value assigned. *)
Theorem limit_leaves_count_above_capacity (g : underscore) :
  let calls := [Put "a" (Num 1); Put "b" (Num 2); Put "c" (Num 3);
                Put "d" (Num 4); Put "e" (Num 5); Limit (Finite 3)] in
  let s := run g calls (CacheLRU (Finite (5 # 1))) in
  let s' := run g (calls ++ [Put "f" (Num 6)]) (CacheLRU (Finite (5 # 1))) in
  (_currentSize s = 5 /\ _cacheSize s = 3 /\
   ~ _currentSize s <= _cacheSize s /\
   _currentSize s' = 6 /\ _cacheSize s' = 3 /\
   length (iterate false 7 s') =
     match g with Unbound => 6%nat | Lodash => 4%nat end) /\
  (forall parsed s0,
     _currentSize (perform g (Limit parsed) s0) = _currentSize s0 /\
     _cacheSize (perform g (Limit parsed) s0) = clamped parsed).
Proof.
  split.
  - destruct g; cbv zeta; split_and!; by vm_compute.
  - intros parsed s0. simpl. split; [apply limit_set_count|].
    by destruct (limit_set_stores g parsed s0) as [? _].
Qed.

(** C2 on the code: where no global [_] is bound, assigning a limit
    below the current count throws a [ReferenceError] (after the capacity
    has been stored), and so does any assignment to [limit] on a fresh
    cache, whose count 0 differs from every capacity. *)
Theorem limit_throws_without_underscore :
  limit_set Unbound (Finite 3) cache_abcde =
    Throws "ReferenceError" (with_cacheSize 3 cache_abcde) /\
  limit_set Unbound (Finite 10) (CacheLRU (Finite (2 # 1))) =
    Throws "ReferenceError" (with_cacheSize 10 (CacheLRU (Finite (2 # 1)))) /\
  limit_set Unbound NaN (CacheLRU (Finite (2 # 1))) =
    Throws "ReferenceError" (CacheLRU (Finite (2 # 1))).
Proof. split_and!; reflexivity. Qed.

(** C8, the claim as stated fails: with [x] set, [isSet(x)] is the entry
    object and [isSet(y)] is [undefined]; neither is a boolean. *)
Lemma isSet_not_boolean :
  let s := (put "x" (Num 1) (CacheLRU (Finite (2 # 1)))).2 in
  (isSet "x" s).1 = Ref 0%nat /\
  (isSet "y" s).1 = Undefined /\
  ~ (exists b, (isSet "x" s).1 = Bool b) /\
  ~ (exists b, (isSet "y" s).1 = Bool b).
Proof.
  cbv zeta. split_and!; [reflexivity|reflexivity| |]; by intros [b Hb].
Qed.


(** ** Further properties: traversal *)

(** X1.  [iterate] on a well-formed cache.  Given enough iterations,
    the ascending loop hands the iteratee the pairs of the order list
    from oldest to newest, and the descending loop hands it the same
    pairs in the opposite order. *)
Theorem iterate_both_ways s l fuel :
  wf s l -> (length l < fuel)%nat ->
  iterate false fuel s = contents s l /\
  iterate true fuel s = reverse (iterate false fuel s).
Proof.
  intros Hwf Hf. destruct (iterate_contents_aux s l fuel Hwf Hf) as [Ha Hd].
  by rewrite Ha, Hd.
Qed.

(** ** Further properties: [set] *)

Lemma seg_alter_links (f : entry -> entry) y h p l n :
  (forall e, older (f e) = older e /\ newer (f e) = newer e) ->
  seg h p l n -> seg (alter f y h) p l n.
Proof.
  intros Hf. revert p. induction l as [|x l IH]; intros p Hs; [done|].
  apply seg_cons in Hs as (e & He & Ho & Hn & Hs).
  apply seg_cons. rewrite list_lookup_alter. case_decide as Hyx.
  - subst y. rewrite He. simpl. exists (f e).
    destruct (Hf e) as [-> ->]. split_and!; [done|done|done|by apply IH].
  - exists e. split_and!; [done|done|done|by apply IH].
Qed.

Lemma wf_write_value x v s l : wf s l -> wf (write x (set_value v) s) l.
Proof.
  intros ((Hnd & Hseg & Hhd) & Htl & Hix).
  split_and!; [split_and!| |]; try done.
  - simpl. by apply seg_alter_links.
  - intros k y. links_only. apply Hix.
Qed.

Lemma set_present k v s l1 x l2 :
  wf s (l1 ++ x :: l2) ->
  _keys s !! k = Some x ->
  let s' := (set k v s).2 in
  (set k v s).1 = value (read s x) /\
  wf s' (l1 ++ l2 ++ [x]) /\
  _keys s' = _keys s /\
  _currentSize s' = _currentSize s /\
  _cacheSize s' = _cacheSize s /\
  value (read s' x) = v /\
  (forall y, key (read s' y) = key (read s y)) /\
  (forall y, y <> x -> value (read s' y) = value (read s y)).
Proof.
  intros Hwf Hk s'.
  pose proof (get_returns k true s x Hk) as Hr.
  destruct (get_promotes k true s l1 x l2 Hwf Hk) as (Hwf1 & Hk1 & Hkey1 & Hval1).
  destruct (get_sizes k true s) as [Hsz1 Hcap1].
  assert (Hx : (x < length (heap (get k true s).2))%nat).
  { destruct Hwf1 as (Hord1 & _). apply (ordered_allocated _ _ _ Hord1).
    rewrite !elem_of_app, list_elem_of_singleton. tauto. }
  subst s'. unfold set. destruct (get k true s) as [r s1].
  simpl in Hr, Hwf1, Hk1, Hkey1, Hval1, Hsz1, Hcap1, Hx. subst r. simpl.
  split_and!; try done.
  - by apply wf_write_value.
  - unfold read, write; simpl. by rewrite list_lookup_total_alter_eq.
  - intros y. rewrite <- Hkey1. by links_only.
  - intros y Hy. rewrite <- Hval1. unfold read, write; simpl.
    by rewrite list_lookup_total_alter_ne.
Qed.

Lemma set_absent k v s :
  _keys s !! k = None ->
  set k v s =
    (match (put k v s).1 with
     | Ref evicted => value (read (put k v s).2 evicted)
     | r => r
     end, (put k v s).2).
Proof.
  intros Hk. unfold set, get. rewrite Hk.
  destruct (put k v s) as [r s']. by destruct r.
Qed.

(** ** Further properties: where a key sits *)

Lemma wf_keys_NoDup s l : wf s l -> NoDup (contents s l).*1.
Proof.
  intros ((Hnd & _) & _ & Hix). rewrite contents_keys.
  apply NoDup_fmap_2_strong; [|done].
  intros x y Hx Hy Hxy.
  assert (_keys s !! (key (read s x)) = Some x) as H1 by by apply Hix.
  assert (_keys s !! (key (read s x)) = Some y) as H2 by by apply Hix.
  congruence.
Qed.

Lemma wf_split k s l x :
  wf s l -> _keys s !! k = Some x ->
  exists l1 l2, l = l1 ++ x :: l2 /\ key (read s x) = k /\
    (k ∉ (contents s l1).*1) /\ (k ∉ (contents s l2).*1).
Proof.
  intros Hwf Hk. pose proof (wf_keys_NoDup s l Hwf) as Hnd.
  destruct Hwf as (_ & _ & Hix). apply Hix in Hk as [Hx Hkx].
  apply list_elem_of_split in Hx as (l1 & l2 & ->).
  exists l1, l2. rewrite contents_app, fmap_app in Hnd. simpl in Hnd.
  rewrite Hkx in Hnd.
  apply NoDup_app in Hnd as (_ & Hd & Hnd2).
  apply NoDup_cons in Hnd2 as [Hk2 _].
  split_and!; [done|done| |done].
  intros Hin. apply (Hd k Hin). apply elem_of_cons. by left.
Qed.

Lemma wf_absent k s l : wf s l -> _keys s !! k = None -> k ∉ (contents s l).*1.
Proof.
  intros (_ & _ & Hix) Hk. rewrite contents_keys.
  intros (x & Hkx & Hx)%list_elem_of_fmap.
  assert (_keys s !! k = Some x) as H by by apply Hix.
  congruence.
Qed.

Lemma spec_lookup_absent k m : k ∉ m.*1 -> spec_lookup k m = None.
Proof.
  induction m as [|[k' v] m IH]; [done|]. simpl.
  intros [Hk Hm]%not_elem_of_cons. rewrite decide_False by done. by apply IH.
Qed.

Lemma spec_lookup_middle k v c1 c2 :
  k ∉ c1.*1 -> spec_lookup k (c1 ++ (k, v) :: c2) = Some v.
Proof.
  induction c1 as [|[k' v'] c1 IH]; simpl.
  - intros _. by rewrite decide_True.
  - intros [Hk Hm]%not_elem_of_cons. rewrite decide_False by done. by apply IH.
Qed.

Lemma spec_without_absent k m : k ∉ m.*1 -> spec_without k m = m.
Proof.
  unfold spec_without. induction m as [|[k' v] m IH]; [done|]. simpl.
  intros [Hk Hm]%not_elem_of_cons.
  rewrite filter_cons_True by (simpl; congruence). f_equal. by apply IH.
Qed.

Lemma spec_without_middle k v c1 c2 :
  k ∉ c1.*1 -> k ∉ c2.*1 -> spec_without k (c1 ++ (k, v) :: c2) = c1 ++ c2.
Proof.
  intros H1 H2. unfold spec_without.
  rewrite filter_app, filter_cons_False by (simpl; by intros []).
  fold (spec_without k c1). fold (spec_without k c2).
  by rewrite !spec_without_absent.
Qed.

(** ** Further properties: the code against the specification's cache *)

Lemma sim_get k s l :
  exact s l ->
  exists l', exact (get k false s).2 l' /\
    (get k false s).1 = shown (Get k) (spec_get k (contents s l)).1 /\
    contents (get k false s).2 l' = (spec_get k (contents s l)).2 /\
    _cacheSize (get k false s).2 = _cacheSize s.
Proof.
  intros (Hwf & Hsz & Hle & Hcap). unfold spec_get.
  destruct (_keys s !! k) as [x|] eqn:Hk.
  - destruct (wf_split k s l x Hwf Hk) as (l1 & l2 & -> & Hkx & H1 & H2).
    destruct (get_promotes k false s l1 x l2 Hwf Hk) as (Hwf' & _ & Hkey & Hval).
    destruct (get_sizes k false s) as [Hsz' Hcap'].
    rewrite (get_returns k false s x Hk).
    rewrite contents_app. simpl. rewrite Hkx.
    rewrite spec_lookup_middle, spec_without_middle by done. simpl.
    exists (l1 ++ l2 ++ [x]). split_and!; [split_and!| | |]; try done.
    + rewrite Hsz', Hsz. repeat (rewrite length_app; simpl). lia.
    + congruence.
    + congruence.
    + rewrite (contents_ext s) by (intros y _; by rewrite Hkey, Hval).
      rewrite !contents_app. simpl. by rewrite Hkx, app_assoc.
  - rewrite spec_lookup_absent by by apply wf_absent.
    unfold get. rewrite Hk. simpl. exists l. by split_and!.
Qed.

Lemma sim_remove k s l :
  exact s l -> plain k = true ->
  exists l', exact (remove k s).2 l' /\
    (remove k s).1 = shown (Remove k) (spec_remove k (contents s l)).1 /\
    contents (remove k s).2 l' = (spec_remove k (contents s l)).2 /\
    _cacheSize (remove k s).2 = _cacheSize s.
Proof.
  intros (Hwf & Hsz & Hle & Hcap) Hp. unfold spec_remove.
  destruct (_keys s !! k) as [x|] eqn:Hk.
  - destruct (wf_split k s l x Hwf Hk) as (l1 & l2 & -> & Hkx & H1 & H2).
    destruct (remove_present k s l1 x l2 Hwf Hk)
      as (Hres & Hwf' & _ & Hsz' & Hcap' & Hkey & Hval).
    rewrite Hres, contents_app. simpl. rewrite Hkx.
    rewrite spec_lookup_middle, spec_without_middle by done. simpl.
    rewrite length_app in Hsz. simpl in Hsz.
    exists (l1 ++ l2). split_and!; [split_and!| | |]; try done.
    + rewrite Hsz', Hsz. repeat (rewrite length_app; simpl). lia.
    + lia.
    + congruence.
    + rewrite (contents_ext s) by (intros y _; by rewrite Hkey, Hval).
      by rewrite contents_app.
  - rewrite spec_lookup_absent by by apply wf_absent.
    rewrite (remove_absent k s Hk (plain_not_inherited k Hp)).
    simpl. exists l. by split_and!.
Qed.

Lemma sim_set k v s l :
  exact s l ->
  exists l', exact (set k v s).2 l' /\
    (set k v s).1 = shown (Set_ k v) (spec_set (_cacheSize s) k v (contents s l)).1 /\
    contents (set k v s).2 l' = (spec_set (_cacheSize s) k v (contents s l)).2 /\
    _cacheSize (set k v s).2 = _cacheSize s.
Proof.
  intros (Hwf & Hsz & Hle & Hcap). unfold spec_set.
  destruct (_keys s !! k) as [x|] eqn:Hk.
  - destruct (wf_split k s l x Hwf Hk) as (l1 & l2 & -> & Hkx & H1 & H2).
    destruct (set_present k v s l1 x l2 Hwf Hk)
      as (Hres & Hwf' & _ & Hsz' & Hcap' & Hvx & Hkey & Hval).
    assert (Hnd : NoDup (l1 ++ x :: l2)) by by destruct Hwf as ((? & _) & _).
    apply NoDup_drop_middle in Hnd as [_ Hx].
    rewrite Hres, contents_app. simpl. rewrite Hkx.
    rewrite spec_lookup_middle, spec_without_middle by done. simpl.
    exists (l1 ++ l2 ++ [x]). split_and!; [split_and!| | |]; try done.
    + rewrite Hsz', Hsz. repeat (rewrite length_app; simpl). lia.
    + congruence.
    + congruence.
    + rewrite app_assoc, contents_app. simpl. rewrite Hkey, Hkx, Hvx.
      f_equal. rewrite <- contents_app. apply contents_ext.
      intros y Hy. rewrite Hkey. split; [done|]. apply Hval. by intros ->.
  - rewrite spec_lookup_absent by by apply wf_absent.
    rewrite set_absent by done.
    assert (Hlen : length (contents s l) = length l) by apply length_fmap.
    rewrite Hlen, <- Hsz.
    case_decide as Hfull.
    + destruct l as [|h l]; [simpl in Hsz; lia|].
      destruct (put_evict k v s h l Hwf Hk Hfull)
        as (Hres & Hwf' & _ & Hsz' & Hcap' & _ & Hkn & Hvn & Hkey & Hval).
      assert (Hh : (h < length (heap s))%nat).
      { destruct Hwf as (Hord & _). apply (ordered_allocated _ _ _ Hord).
        apply elem_of_cons. by left. }
      rewrite Hres. simpl. rewrite Hval by done.
      exists (l ++ [length (heap s)]). split_and!; [split_and!| | |]; try done.
      * rewrite Hsz', Hsz. repeat (rewrite length_app; simpl). lia.
      * congruence.
      * congruence.
      * rewrite contents_app. simpl. rewrite Hkn, Hvn. f_equal.
        apply contents_ext. intros y Hy.
        assert (y < length (heap s))%nat.
        { destruct Hwf as (Hord & _). apply (ordered_allocated _ _ _ Hord).
          apply elem_of_cons. by right. }
        by rewrite Hkey, Hval.
    + destruct (put_room k v s l Hwf Hk Hfull)
        as (Hres & Hwf' & _ & Hsz' & Hcap' & _ & Hkn & Hvn & Hkey & Hval).
      rewrite Hres. simpl.
      exists (l ++ [length (heap s)]). split_and!; [split_and!| | |]; try done.
      * rewrite Hsz', Hsz. repeat (rewrite length_app; simpl). lia.
      * lia.
      * congruence.
      * rewrite contents_app. simpl. rewrite Hkn, Hvn. f_equal.
        apply contents_ext. intros y Hy.
        assert (y < length (heap s))%nat.
        { destruct Hwf as (Hord & _). by apply (ordered_allocated _ _ _ Hord). }
        by rewrite Hkey, Hval.
Qed.

Lemma destroy_exact s : 2 <= _cacheSize s -> exact (destroy s) [].
Proof.
  intros Hcap.
  assert (Hix : indexed (destroy s) []).
  { intros k x. simpl. rewrite lookup_empty. split; [done|].
    intros [Hx _]. by apply elem_of_nil in Hx. }
  unfold exact, wf, ordered. simpl. split_and!; try done; [apply NoDup_nil_2|lia].
Qed.

Lemma sim_invoke g c s l :
  is_upsert c = true -> plain_call c = true -> exact s l ->
  exists l', exact (invoke g c s).2 l' /\
    (invoke g c s).1 = shown c (spec_invoke (_cacheSize s) c (contents s l)).1 /\
    contents (invoke g c s).2 l' = (spec_invoke (_cacheSize s) c (contents s l)).2 /\
    _cacheSize (invoke g c s).2 = _cacheSize s.
Proof.
  intros Hc Hp Hex. destruct c as [k v|k v|k|k| | |]; try done; simpl.
  - by apply sim_set.
  - by apply sim_get.
  - by apply sim_remove.
  - exists []. split_and!; try done. apply destroy_exact. by destruct Hex as (_ & _ & _ & ?).
Qed.

Lemma sim_invoke_each g cs : forall s l,
  forallb is_upsert cs = true -> forallb plain_call cs = true -> exact s l ->
  (invoke_each g cs s).1 =
    zip_with shown cs (spec_invoke_each (_cacheSize s) cs (contents s l)).1 /\
  exists l', exact (invoke_each g cs s).2 l' /\
    contents (invoke_each g cs s).2 l' =
      (spec_invoke_each (_cacheSize s) cs (contents s l)).2 /\
    _cacheSize (invoke_each g cs s).2 = _cacheSize s.
Proof.
  induction cs as [|c cs IH]; intros s l Hcs Hps Hex.
  - simpl. split; [done|]. by exists l.
  - simpl in Hcs, Hps. apply andb_prop in Hcs as [Hc Hcs].
    apply andb_prop in Hps as [Hp Hps].
    destruct (sim_invoke g c s l Hc Hp Hex) as (l1 & Hex1 & Hr1 & Hc1 & Hcap1).
    simpl. destruct (invoke g c s) as [r s1]. simpl in Hex1, Hr1, Hc1, Hcap1.
    destruct (spec_invoke (_cacheSize s) c (contents s l)) as [r' m1].
    simpl in Hr1, Hc1. subst m1.
    destruct (IH s1 l1 Hcs Hps Hex1) as (Hrs & l2 & Hex2 & Hc2 & Hcap2).
    rewrite Hcap1 in Hrs, Hc2, Hcap2.
    destruct (invoke_each g cs s1) as [rs s2].
    destruct (spec_invoke_each (_cacheSize s) cs (contents s1 l1)) as [rs' m2].
    simpl in *. split; [by rewrite Hr1, Hrs|]. by exists l2.
Qed.

(** ** Further properties: draining and shrinking *)

Lemma shift_empty s : head s = None -> shift s = (Undefined, s).
Proof. intros H. unfold shift. by rewrite H. Qed.

Lemma drain_state m s : (drain m s).2 = Nat.iter m (fun s => (shift s).2) s.
Proof.
  revert s. induction m as [|m IH]; intros s; [done|].
  rewrite Nat.iter_succ_r. simpl.
  destruct (shift s) as [r s1]. specialize (IH s1).
  destruct (drain m s1) as [rs s2]. simpl in *. done.
Qed.

Lemma drain_ordered m : forall s l,
  ordered s l -> indexed s l ->
  let s' := (drain m s).2 in
  (drain m s).1 = (Ref <$> take m l) ++ replicate (m - length l) Undefined /\
  ordered s' (drop m l) /\
  indexed s' (drop m l) /\
  (forall y, key (read s' y) = key (read s y)) /\
  (forall y, value (read s' y) = value (read s y)).
Proof.
  induction m as [|m IH]; intros s l Hord Hix s'.
  - subst s'. simpl. rewrite drop_0. by split_and!.
  - destruct l as [|x l].
    + assert (Hhd : head s = None) by by destruct Hord as (_ & _ & ?).
      subst s'. simpl. rewrite (shift_empty s Hhd).
      destruct (IH s [] Hord Hix) as (Hrs & Hord' & Hix' & Hkey & Hval).
      destruct (drain m s) as [rs s2]. simpl in *.
      rewrite take_nil, drop_nil, Nat.sub_0_r in *. simpl in Hrs.
      rewrite Hrs. by split_and!.
    + destruct (shift_ordered s x l Hord)
        as (Hres & Hord1 & Hk1 & _ & _ & _ & _ & Hkey1 & Hval1 & _).
      assert (Hix1 : indexed (shift s).2 l).
      { apply (indexed_delete s _ [] x l); [by destruct Hord|done|done|done]. }
      subst s'. simpl. destruct (shift s) as [r s1]. simpl in *. subst r.
      destruct (IH s1 l Hord1 Hix1) as (Hrs & Hord' & Hix' & Hkey & Hval).
      destruct (drain m s1) as [rs s2]. simpl in *.
      rewrite Hrs. split_and!; try done.
      * intros y. by rewrite Hkey.
      * intros y. by rewrite Hval.
Qed.

(** X2.  Draining.  On a well-formed cache, [n] successive calls of
    [shift()] return the entries of the order list from the oldest on,
    then [undefined] once the list is exhausted; what is left in the
    order list and in the index are the entries not yet returned, with
    their keys and values. *)
Theorem drain_in_order n s l :
  wf s l ->
  let s' := (drain n s).2 in
  (drain n s).1 = (Ref <$> take n l) ++ replicate (n - length l) Undefined /\
  order s' = drop n l /\
  indexed s' (drop n l) /\
  contents s' (drop n l) = drop n (contents s l).
Proof.
  intros (Hord & _ & Hix) s'.
  destruct (drain_ordered n s l Hord Hix) as (Hrs & Hord' & Hix' & Hkey & Hval).
  split_and!; [done|by apply order_ordered|done|].
  unfold contents at 2. rewrite <- fmap_drop. apply contents_ext.
  intros y _. by rewrite Hkey, Hval.
Qed.

(** X3.  Lowering the limit with lodash loaded.  On a well-formed
    cache the setter returns, stores the clamped capacity and evicts the
    [_currentSize - capacity] oldest entries (none when that is not
    positive): the order list, the index and the pairs left are those of
    the newest entries; [_currentSize] is left as it was. *)
Theorem limit_evicts_oldest parsed s l :
  wf s l ->
  let n := Z.to_nat (_currentSize s - clamped parsed) in
  exists s',
    limit_set Lodash parsed s = Returns s' /\
    limit_get s' = clamped parsed /\
    order s' = drop n l /\
    indexed s' (drop n l) /\
    contents s' (drop n l) = drop n (contents s l) /\
    _currentSize s' = _currentSize s.
Proof.
  intros Hwf n.
  assert (Hwf0 : wf (with_cacheSize (clamped parsed) s) l) by exact Hwf.
  destruct (drain_in_order n _ l Hwf0) as (_ & Ho & Hix & Hc).
  rewrite drain_state in Ho, Hix, Hc.
  unfold limit_set. cbv zeta. simpl. case_decide as Hz.
  - assert (n = 0%nat) as Hn0 by (unfold n; lia).
    rewrite Hn0 in Ho, Hix, Hc. simpl in Ho, Hix, Hc.
    eexists. split; [done|]. rewrite Hn0. by split_and!.
  - eexists. split; [done|]. unfold times. fold n. split_and!; try done.
    + by destruct (times_shift_sizes (_currentSize s - clamped parsed)
                     (with_cacheSize (clamped parsed) s)) as [_ ?].
    + by destruct (times_shift_sizes (_currentSize s - clamped parsed)
                     (with_cacheSize (clamped parsed) s)) as [? _].
Qed.

(** ** Further properties: [put], [get] and [set] on a well-formed cache *)

(** X4.  [put] with room.  In a well-formed cache, [put] of a key that
    is not in the index and is not ['__proto__'] (for which the
    assignment to the index creates no property), while [_currentSize]
    differs from the capacity, returns [null], adds the pair as the
    newest entry behind the others, which keep their order, keys and
    values, binds the key to the new entry, so that [isSet] returns that
    entry and [get] its value, and raises [_currentSize] by one. *)
Theorem put_appends_newest k v s l :
  wf s l -> _keys s !! k = None -> k <> "__proto__" ->
  _currentSize s <> _cacheSize s ->
  let n := length (heap s) in
  let s' := (put k v s).2 in
  (put k v s).1 = Null /\
  wf s' (l ++ [n]) /\
  contents s' (l ++ [n]) = contents s l ++ [(k, v)] /\
  _keys s' = <[k := n]> (_keys s) /\
  (isSet k s').1 = Ref n /\
  (get k false s').1 = v /\
  _currentSize s' = _currentSize s + 1.
Proof.
  intros Hwf Hk _ Hroom n s'. subst n s'.
  destruct (put_room k v s l Hwf Hk Hroom)
    as (Hres & Hwf' & Hk' & Hsz' & _ & _ & _ & Hvn & _).
  assert (Hx : _keys (put k v s).2 !! k = Some (length (heap s)))
    by by rewrite Hk', lookup_insert_eq.
  split_and!; try done.
  - by apply put_room_contents.
  - unfold isSet. cbn [fst]. by rewrite Hx.
  - by rewrite (get_returns _ _ _ _ Hx).
Qed.

(** X5.  [put] into a full cache.  In a well-formed non-empty cache
    whose [_currentSize] equals the capacity, [put] of a key that is not
    in the index and is not ['__proto__'] returns the oldest entry, which
    it evicts: the entry keeps its key and value, both its links are
    cleared and the index no longer binds its key, so that [isSet] of
    that key answers [undefined] when the key is not a name the index
    object answers for from its prototype.  The pair is added as the
    newest entry; the other entries keep their order, keys and values,
    and [_currentSize] stays the same. *)
Theorem put_evicts_oldest k v s x l :
  wf s (x :: l) -> _keys s !! k = None -> k <> "__proto__" ->
  _currentSize s = _cacheSize s ->
  let n := length (heap s) in
  let s' := (put k v s).2 in
  (put k v s).1 = Ref x /\
  key (read s' x) = key (read s x) /\ value (read s' x) = value (read s x) /\
  newer (read s' x) = None /\ older (read s' x) = None /\
  wf s' (l ++ [n]) /\
  contents s' (l ++ [n]) = contents s l ++ [(k, v)] /\
  _keys s' = delete (key (read s x)) (<[k := n]> (_keys s)) /\
  _keys s' !! key (read s x) = None /\
  (plain (key (read s x)) = true -> (isSet (key (read s x)) s').1 = Undefined) /\
  _currentSize s' = _currentSize s.
Proof.
  intros Hwf Hk _ Hfull n s'. subst n s'.
  destruct (put_evict k v s x l Hwf Hk Hfull) as (Hres & Hwf' & Hk' & Hsz' & _).
  destruct (put_evict_contents k v s x l Hwf Hk Hfull) as (Hc & Hkx & Hvx).
  destruct (put_evict_links k v s x l Hwf Hk Hfull) as (Hnw & Hol).
  assert (Hgone : _keys (put k v s).2 !! key (read s x) = None)
    by by rewrite Hk', lookup_delete_eq.
  split_and!; try done.
  intros Hp. by rewrite isSet_absent by auto using plain_not_inherited.
Qed.

(** X6.  [get] promotes.  In a well-formed cache, [get] of a key that
    is set returns its value and moves its entry to the newest end of the
    order list; the other entries keep their relative order, and the
    index, all keys and values, [_currentSize] and the capacity are
    unchanged. *)
Theorem get_moves_to_newest k s l1 x l2 :
  wf s (l1 ++ x :: l2) -> _keys s !! k = Some x ->
  let s' := (get k false s).2 in
  (get k false s).1 = value (read s x) /\
  wf s' (l1 ++ l2 ++ [x]) /\
  contents s' (l1 ++ l2 ++ [x]) =
    contents s l1 ++ contents s l2 ++ [(k, value (read s x))] /\
  _keys s' = _keys s /\
  _currentSize s' = _currentSize s /\ _cacheSize s' = _cacheSize s.
Proof.
  intros Hwf Hk s'. subst s'.
  destruct (get_promotes k false s l1 x l2 Hwf Hk) as (Hwf' & Hk' & Hkey & Hval).
  destruct (get_sizes k false s) as [Hsz Hcap].
  assert (Hkx : key (read s x) = k) by (destruct Hwf as (_ & _ & Hix); by apply Hix).
  split_and!; try done.
  - by rewrite (get_returns k false s x Hk).
  - rewrite (contents_ext s) by (intros y _; by rewrite Hkey, Hval).
    rewrite !contents_app. simpl. by rewrite Hkx.
Qed.

(** X7.  Recency protects from eviction.  In a well-formed cache with
    at least two entries, a [shift()] that follows [get(k)] of a key that
    is set does not return the entry of [k]: it returns the oldest of the
    other entries. *)
Theorem get_then_shift_spares k s l1 x l2 :
  wf s (l1 ++ x :: l2) -> _keys s !! k = Some x -> l1 ++ l2 <> [] ->
  exists y, (shift (get k false s).2).1 = Ref y /\ y <> x /\
            hd_error (l1 ++ l2) = Some y.
Proof. apply get_protects_from_eviction. Qed.

(** X8.  [set] of a key that is set.  In a well-formed cache it returns
    the old value, stores the new one in the same entry, and moves that
    entry to the newest end; the index, the other entries' values and
    order, and [_currentSize] are unchanged. *)
Theorem set_overwrites k v s l1 x l2 :
  wf s (l1 ++ x :: l2) -> _keys s !! k = Some x ->
  let s' := (set k v s).2 in
  (set k v s).1 = value (read s x) /\
  wf s' (l1 ++ l2 ++ [x]) /\
  contents s' (l1 ++ l2 ++ [x]) = contents s l1 ++ contents s l2 ++ [(k, v)] /\
  _keys s' = _keys s /\
  _currentSize s' = _currentSize s.
Proof.
  intros Hwf Hk s'. subst s'.
  destruct (set_present k v s l1 x l2 Hwf Hk)
    as (Hres & Hwf' & Hk' & Hsz & _ & Hvx & Hkey & Hval).
  assert (Hkx : key (read s x) = k) by (destruct Hwf as (_ & _ & Hix); by apply Hix).
  assert (Hx : x ∉ l1 ++ l2).
  { destruct Hwf as ((Hnd & _) & _). by apply NoDup_drop_middle in Hnd as [_ ?]. }
  split_and!; try done.
  rewrite app_assoc, contents_app. simpl. rewrite Hkey, Hkx, Hvx.
  rewrite (app_assoc (contents s l1)). f_equal.
  rewrite <- contents_app. apply contents_ext.
  intros y Hy. rewrite Hkey. split; [done|]. apply Hval. by intros ->.
Qed.

(** X9.  [set] of a key that is not set, the key being [plain] (not a
    name for which the lookup on the index object answers from its
    prototype).  In a well-formed cache with room it returns [null] and
    adds the pair as the newest entry; in a full non-empty one it returns
    the value (not the entry) of the oldest entry, which it evicts, and
    adds the pair as the newest entry. *)
Theorem set_inserts k v s l :
  wf s l -> _keys s !! k = None -> plain k = true ->
  l <> [] \/ _currentSize s <> _cacheSize s ->
  let n := length (heap s) in
  let s' := (set k v s).2 in
  (if decide (_currentSize s = _cacheSize s)
   then (exists x, hd_error l = Some x /\ (set k v s).1 = value (read s x)) /\
        wf s' (tl l ++ [n]) /\
        contents s' (tl l ++ [n]) = contents s (tl l) ++ [(k, v)] /\
        _currentSize s' = _currentSize s
   else (set k v s).1 = Null /\
        wf s' (l ++ [n]) /\
        contents s' (l ++ [n]) = contents s l ++ [(k, v)] /\
        _currentSize s' = _currentSize s + 1).
Proof.
  intros Hwf Hk _ Hne n s'. subst n s'. rewrite (set_absent k v s Hk). simpl.
  case_decide as Hfull.
  - destruct l as [|x l]; [by destruct Hne|]. simpl.
    destruct (put_evict k v s x l Hwf Hk Hfull) as (Hres & Hwf' & _ & Hsz' & _).
    destruct (put_evict_contents k v s x l Hwf Hk Hfull) as (Hc & _ & Hvx).
    rewrite Hres. split_and!; try done. by exists x.
  - destruct (put_room k v s l Hwf Hk Hfull) as (Hres & Hwf' & _ & Hsz' & _).
    rewrite Hres. split_and!; try done. by apply put_room_contents.
Qed.


(** X11.  The edge left out above, for a [plain] key.  In a well-formed
    cache that is empty while [_currentSize] equals the capacity, [put]
    links the new entry as head and at once evicts it: it returns the
    entry it has just created, the key is not set afterwards and the
    order list is empty; [set] of the key returns the value it was
    given. *)
Theorem put_evicts_itself k v s :
  wf s [] -> _keys s !! k = None -> plain k = true ->
  _currentSize s = _cacheSize s ->
  (put k v s).1 = Ref (length (heap s)) /\
  _keys (put k v s).2 !! k = None /\
  (isSet k (put k v s).2).1 = Undefined /\
  order (put k v s).2 = [] /\
  (set k v s).1 = v /\
  (get k false (set k v s).2).1 = Undefined.
Proof.
  intros Hwf Hk Hp%plain_not_inherited Hfull.
  pose proof (put_link_wf k v s [] Hwf Hk) as Hwf1.
  destruct Hwf as (Hord & Htl & _).
  destruct (put_link_ordered k v s [] Hord Htl)
    as (_ & _ & _ & Hk1 & Hsz1 & Hcap1 & _ & Hkn & Hvn & _).
  assert (Hput : (put k v s).1 = Ref (length (heap s)) /\
                 _keys (put k v s).2 !! k = None /\
                 order (put k v s).2 = [] /\
                 value (read (put k v s).2 (length (heap s))) = v).
  { unfold put. destruct (put_link k v s) as [e s1].
    simpl in Hk1, Hsz1, Hcap1, Hkn, Hvn, Hwf1.
    rewrite decide_True by congruence.
    destruct Hwf1 as (Hord1 & _).
    destruct (shift_ordered s1 (length (heap s)) [] Hord1)
      as (Hres & Hord2 & Hk2 & _ & _ & _ & _ & _ & Hval2 & _).
    split_and!; [done| |by apply order_ordered|by rewrite Hval2].
    by rewrite Hk2, Hkn, lookup_delete_eq. }
  destruct Hput as (Hres & Hgone & Ho & Hv).
  split_and!; [done|done| |done| |].
  - by rewrite isSet_absent.
  - rewrite (set_absent k v s Hk). simpl. by rewrite Hres.
  - rewrite (set_absent k v s Hk). simpl. unfold get. by rewrite Hgone.
Qed.

(** X12.  [shift] of the only entry.  In a well-formed cache with one
    entry, [shift()] empties the order list but leaves [tail] referring
    to the evicted entry.  A [put] that follows links its entry behind
    that one and leaves [head] undefined: the key is set and [get] finds
    its value, but the order list stays empty, so an ascending [iterate]
    hands nothing to the iteratee and the entry can never be evicted. *)
Theorem shift_of_only_entry s x :
  wf s [x] ->
  let s1 := (shift s).2 in
  head s1 = None /\ tail s1 = Some x /\
  forall k v fuel,
    let s2 := (put k v s1).2 in
    (put k v s1).1 =
      (if decide (_currentSize s = _cacheSize s) then Undefined else Null) /\
    head s2 = None /\
    order s2 = [] /\
    iterate false fuel s2 = [] /\
    (shift s2).1 = Undefined /\
    (get k false s2).1 = v.
Proof.
  intros (Hord & Htl & _) s1.
  destruct (shift_ordered s x [] Hord)
    as (_ & (_ & _ & Hhd1) & _ & Htl1 & Hsz1 & Hcap1 & Hlen1 & _).
  fold s1 in Hhd1, Htl1, Hsz1, Hcap1, Hlen1. simpl in Hhd1, Htl.
  rewrite Htl in Htl1.
  assert (Hx : (x < length (heap s1))%nat).
  { rewrite Hlen1. apply (ordered_allocated s [x] x Hord). apply elem_of_cons. by left. }
  clearbody s1. split_and!; [done|done|]. intros k v fuel s2.
  assert (Hput : head s2 = None /\
                 _keys s2 !! k = Some (length (heap s1)) /\
                 value (read s2 (length (heap s1))) = v /\
                 (put k v s1).1 =
                   (if decide (_currentSize s = _cacheSize s) then Undefined else Null)).
  { subst s2. unfold put, put_link, alloc. simpl. rewrite Htl1. simpl.
    rewrite Hsz1, Hcap1.
    assert (Hv : value (alter (set_older (Some x)) (length (heap s1))
                   (alter (set_newer (Some (length (heap s1)))) x
                      (heap s1 ++ [Entry k v None None]))
                 !!! length (heap s1)) = v).
    { rewrite !value_alter by done.
      by rewrite (list_lookup_total_middle (heap s1) []). }
    case_decide.
    - rewrite shift_empty by done. simpl. unfold read. simpl.
      by rewrite lookup_insert_eq.
    - simpl. unfold read. simpl. by rewrite lookup_insert_eq. }
  destruct Hput as (Hhd2 & Hk2 & Hv2 & Hres).
  split_and!; try done.
  - unfold order. rewrite Hhd2. done.
  - unfold iterate. rewrite Hhd2. by destruct fuel.
  - by rewrite shift_empty.
  - by rewrite (get_returns _ _ _ _ Hk2).
Qed.

(** ** Further properties: [remove] and [shift] on a well-formed cache *)

(** X21.  [remove].  In a well-formed cache whose order list is
    [l1 ++ x :: l2] (interior entry when both sides are non-empty, head
    when [l1] is empty, tail when [l2] is empty, sole entry when both
    are), removing the key bound to [x], which is not ['__proto__'],
    returns the value of [x] and leaves a well-formed cache whose order
    list is [l1 ++ l2], with the keys and values the other entries had;
    the key is taken out of the index, [_currentSize] is lowered by one
    and the capacity is kept.  For a plain key, [isSet] then answers
    [undefined], and removing a plain key that is not in the index
    returns [undefined] and changes nothing. *)
Theorem remove_unlinks k s :
  (forall x l1 l2,
     _keys s !! k = Some x -> wf s (l1 ++ x :: l2) -> k <> "__proto__" ->
     let s' := (remove k s).2 in
     (remove k s).1 = value (read s x) /\
     wf s' (l1 ++ l2) /\
     order s' = l1 ++ l2 /\
     (x ∉ order s') /\
     contents s' (l1 ++ l2) = contents s l1 ++ contents s l2 /\
     _keys s' = delete k (_keys s) /\
     _keys s' !! k = None /\
     (plain k = true -> (isSet k s').1 = Undefined) /\
     _currentSize s' = _currentSize s - 1 /\
     _cacheSize s' = _cacheSize s) /\
  (_keys s !! k = None -> plain k = true -> remove k s = (Undefined, s)).
Proof.
  split; [|intros Hk Hp; by apply remove_absent, plain_not_inherited].
  intros x l1 l2 Hk Hwf _ s'.
  destruct (remove_present k s l1 x l2 Hwf Hk)
    as (Hres & Hwf' & Hk' & Hsz & Hcap & Hkey & Hval).
  fold s' in Hwf', Hk', Hsz, Hcap, Hkey, Hval.
  assert (Hord : order s' = l1 ++ l2) by (apply order_ordered; by destruct Hwf').
  assert (Hgone : _keys s' !! k = None) by by rewrite Hk', lookup_delete_eq.
  rewrite Hord.
  split_and!; try done.
  - destruct Hwf as ((Hnd & _) & _).
    by apply NoDup_drop_middle in Hnd as [_ ?].
  - rewrite <- contents_app. apply contents_ext. intros y _. by rewrite Hkey, Hval.
  - intros Hp. by rewrite isSet_absent by auto using plain_not_inherited.
Qed.

(** X22.  [shift] on a well-formed cache that is not empty.  With the
    order list [x :: l], [shift] returns the head entry [x], which keeps
    its key and value and has both its links cleared, and makes the next
    entry the head, with nothing older than it: [l] is the order list
    afterwards, with the same keys and values.  The key of [x] is deleted
    from the index, which then binds exactly the keys of [l].  [tail] is
    left as it was, so the cache is well formed again when [l] is not
    empty.  [_currentSize] is left as it was, whereas [remove] of the same
    key lowers it by one. *)
Theorem shift_unlinks_head s x l :
  wf s (x :: l) ->
  let s' := (shift s).2 in
  (shift s).1 = Ref x /\
  key (read s' x) = key (read s x) /\ value (read s' x) = value (read s x) /\
  newer (read s' x) = None /\ older (read s' x) = None /\
  head s' = hd_error l /\
  (forall n, hd_error l = Some n -> older (read s' n) = None) /\
  ordered s' l /\
  order s' = l /\
  (x ∉ order s') /\
  contents s' l = contents s l /\
  _keys s' = delete (key (read s x)) (_keys s) /\
  _keys s' !! (key (read s x)) = None /\
  indexed s' l /\
  tail s' = tail s /\
  (l <> [] -> wf s' l) /\
  _currentSize s' = _currentSize s /\
  _cacheSize s' = _cacheSize s /\
  _currentSize (remove (key (read s x)) s).2 = _currentSize s - 1.
Proof.
  intros (Hord & Htl & Hix) s'.
  destruct (shift_ordered s x l Hord)
    as (Hres & Hord' & Hk' & Htl' & Hsz & Hcap & _ & Hkey & Hval & Hnw & Hol).
  fold s' in Hord', Hk', Htl', Hsz, Hcap, Hkey, Hval, Hnw, Hol.
  assert (Ho : order s' = l) by by apply order_ordered.
  assert (Hkx : _keys s !! (key (read s x)) = Some x).
  { apply Hix. split; [|done]. apply elem_of_cons. by left. }
  assert (Hix' : indexed s' l).
  { apply (indexed_delete s s' [] x l); [by destruct Hord|done|done|done]. }
  rewrite Ho.
  split_and!; try done.
  - by destruct Hord' as (_ & _ & ?).
  - intros n Hn. destruct l as [|n' l']; [done|]. injection Hn as ->.
    destruct Hord' as (_ & Hseg & _).
    apply seg_cons in Hseg as (e & He & Hoe & _).
    by rewrite (read_lookup _ _ _ He).
  - destruct Hord as (Hnd & _). by apply NoDup_cons in Hnd as [? _].
  - apply contents_ext. intros y _. by rewrite Hkey, Hval.
  - by rewrite Hk', lookup_delete_eq.
  - intros Hne. split_and!; [done| |done].
    rewrite Htl', Htl. destruct l as [|n l']; [done|]. by rewrite last_cons_cons.
  - by destruct (remove_present (key (read s x)) s [] x l)
      as (_ & _ & _ & ? & _).
Qed.

(** ** Further properties: [destroy] and refilling *)

Lemma destroy_wf s : wf (destroy s) [].
Proof.
  assert (Hix : indexed (destroy s) []).
  { intros k x. simpl. rewrite lookup_empty. split; [done|].
    intros [Hx _]. by apply elem_of_nil in Hx. }
  unfold wf, ordered. simpl. split_and!; try done. apply NoDup_nil_2.
Qed.

(** X13.  [destroy] resets the cache.  Whatever calls with plain keys
    were made on it, also raw [put]s of a key already set, [shift] and
    assignments to [limit], after [destroy()] the cache is well formed
    and empty: no plain key is set, both directions of [iterate] and
    [keys()] yield nothing, [_currentSize] is 0 and the capacity is kept.
    Up to capacity many [put]s of distinct plain keys then all return
    [null], and [iterate] yields exactly their pairs in insertion
    order. *)
Theorem destroy_then_fill g parsed cs kvs :
  forallb plain_call cs = true ->
  forallb plain kvs.*1 = true ->
  NoDup kvs.*1 ->
  Z.of_nat (length kvs) <= _cacheSize (run g cs (CacheLRU parsed)) ->
  let s := run g cs (CacheLRU parsed) in
  let s0 := destroy s in
  let s' := (put_each kvs s0).2 in
  (wf s0 [] /\ _currentSize s0 = 0 /\ _cacheSize s0 = _cacheSize s /\
   keys s0 = [] /\
   (forall k, plain k = true ->
      (isSet k s0).1 = Undefined /\ get k false s0 = (Undefined, s0) /\
      remove k s0 = (Undefined, s0)) /\
   (forall d fuel, iterate d fuel s0 = [])) /\
  (put_each kvs s0).1 = replicate (length kvs) Null /\
  _currentSize s' = Z.of_nat (length kvs) /\
  (forall fuel, (length kvs < fuel)%nat ->
     iterate false fuel s' = kvs /\ iterate true fuel s' = reverse kvs) /\
  (forall k v, (k, v) ∈ kvs -> (get k false s').1 = v).
Proof.
  intros _ _ Hnd Hlen s s0 s'. fold s in Hlen. clearbody s.
  pose proof (destroy_wf s) as Hwf0. fold s0 in Hwf0.
  assert (Hfresh : forall k, k ∈ kvs.*1 -> _keys s0 !! k = None).
  { intros k _. apply lookup_empty. }
  assert (Hsz : _currentSize s0 + Z.of_nat (length kvs) <= _cacheSize s0) by (simpl; lia).
  destruct (put_each_room kvs s0 [] Hwf0 Hsz Hnd Hfresh)
    as (Hrs & Hwf' & Hsz' & _ & _ & _ & Hnew).
  pose proof (put_each_contents kvs s0 [] Hwf0 Hsz Hnd Hfresh) as Hc.
  fold s' in Hwf', Hsz', Hnew, Hc. simpl in Hc, Hwf'.
  split; [split_and!; try done|split_and!; try done].
  - intros k Hp%plain_not_inherited.
    assert (Hk : _keys s0 !! k = None) by apply lookup_empty.
    split_and!; [by rewrite isSet_absent|done|by rewrite remove_absent].
  - intros [|] [|fuel]; done.
  - intros fuel Hf.
    destruct (iterate_contents_aux s' _ fuel Hwf') as [-> ->]; [|by rewrite Hc].
    by rewrite length_seq.
  - intros k v Hin. apply list_elem_of_lookup in Hin as [i Hi].
    destruct (Hnew i k v Hi) as [Hki Hvi].
    assert (_keys s' !! k = Some (length (heap s0) + i)%nat) as Hx.
    { destruct Hwf' as (_ & _ & Hix). apply Hix. split; [|done].
      apply elem_of_seq. apply lookup_lt_Some in Hi. unfold s0. simpl. lia. }
    by rewrite (get_returns _ _ _ _ Hx).
Qed.

(** ** Further properties: sequences of calls *)

Lemma invoke_state g c s : (invoke g c s).2 = perform g c s.
Proof. by destruct c. Qed.

Lemma invoke_each_state g cs s : (invoke_each g cs s).2 = run g cs s.
Proof.
  revert s. induction cs as [|c cs IH]; intros s; [done|]. simpl.
  rewrite <- invoke_state, <- IH.
  destruct (invoke g c s) as [r s1]. simpl.
  by destruct (invoke_each g cs s1).
Qed.

Lemma CacheLRU_exact parsed : exact (CacheLRU parsed) [].
Proof.
  split_and!; [apply CacheLRU_wf|done| |]; simpl;
    pose proof (_toNumber_floor parsed); unfold _minCacheSize; lia.
Qed.

(** X14.  The upsert interface keeps the cache exact.  From a fresh
    cache, after any sequence of [set], [get], [remove] and [destroy]
    calls on plain keys the cache is well formed, [_currentSize] is the number of
    entries in the order list, it does not exceed the capacity, which is
    the one the constructor stored, and [iterate] visits at most
    capacity many entries. *)
Theorem upsert_calls_keep_exact g parsed cs :
  forallb is_upsert cs = true ->
  forallb plain_call cs = true ->
  let s := run g cs (CacheLRU parsed) in
  exists l,
    wf s l /\
    _currentSize s = Z.of_nat (length l) /\
    Z.of_nat (length l) <= limit_get s /\
    limit_get s = limit_get (CacheLRU parsed) /\
    (forall fuel, (length l < fuel)%nat ->
       Z.of_nat (length (iterate false fuel s)) <= limit_get s).
Proof.
  intros Hcs Hps s.
  destruct (sim_invoke_each g cs (CacheLRU parsed) [] Hcs Hps (CacheLRU_exact parsed))
    as (_ & l & (Hwf & Hsz & Hle & Hcap) & _ & Hlim).
  rewrite invoke_each_state in Hwf, Hsz, Hle, Hcap, Hlim. fold s in Hwf, Hsz, Hle, Hcap, Hlim.
  exists l. unfold limit_get. split_and!; try done; [lia|].
  intros fuel Hf. destruct (iterate_contents_aux s l fuel Hwf Hf) as [-> _].
  unfold contents. rewrite length_fmap. lia.
Qed.

(** X15.  The upsert interface implements the specification's cache.
    From a fresh cache, for any sequence of [set], [get], [remove] and
    [destroy] calls on plain keys, every call returns what the specification's
    least-to-most-recent sequence of pairs, run at the constructor's
    capacity, says it returns, and afterwards [iterate] yields that
    sequence, oldest first when ascending and newest first when
    descending. *)
Theorem upsert_calls_refine_spec g parsed cs :
  forallb is_upsert cs = true ->
  forallb plain_call cs = true ->
  let code := invoke_each g cs (CacheLRU parsed) in
  let spec := spec_invoke_each (limit_get (CacheLRU parsed)) cs [] in
  code.1 = zip_with shown cs spec.1 /\
  (forall fuel, (length spec.2 < fuel)%nat ->
     iterate false fuel code.2 = spec.2 /\
     iterate true fuel code.2 = reverse spec.2).
Proof.
  intros Hcs Hps code spec.
  destruct (sim_invoke_each g cs (CacheLRU parsed) [] Hcs Hps (CacheLRU_exact parsed))
    as (Hrs & l & (Hwf & _) & Hc & _).
  fold code in Hrs, Hwf, Hc. unfold limit_get in spec.
  change (contents (CacheLRU parsed) []) with (@nil (string * val)) in Hrs, Hc.
  fold spec in Hrs, Hc.
  split; [done|]. intros fuel Hf. rewrite <- Hc in Hf |- *.
  apply iterate_contents_aux; [done|].
  unfold contents in Hf. by rewrite length_fmap in Hf.
Qed.

(** X16.  Without assignments to [limit] the count stays within the
    capacity.  From a fresh cache, after any sequence of [put], [set],
    [get], [remove], [shift] and [destroy] calls, [_currentSize] does not
    exceed the capacity, and the capacity is at least 2. *)
Theorem count_within_capacity g parsed cs :
  forallb (fun c => negb (is_limit c)) cs = true ->
  let s := run g cs (CacheLRU parsed) in
  2 <= limit_get s /\ _currentSize s <= limit_get s.
Proof. apply run_bounded. Qed.

(** ** Further properties: [keys] *)

Lemma plain_not_proto k : plain k = true -> k <> "__proto__".
Proof. intros Hp ->. by vm_compute in Hp. Qed.

(** X17.  [keys()] returns the keys that the index binds, each once,
    ['__proto__'] apart, whatever the recency order: a plain key is
    listed exactly when [isSet] is truthy for it, and on a well-formed
    cache that holds no entry for ['__proto__'] the keys listed are those
    of the entries [iterate] visits.  When the keys are made of ASCII
    characters, the list is in ascending order. *)
Theorem keys_sorted s :
  NoDup (keys s) /\
  (forall k, k ∈ keys s <-> is_Some (_keys s !! k) /\ k <> "__proto__") /\
  (forall k, plain k = true -> (k ∈ keys s <-> truthy (isSet k s).1 = true)) /\
  (forall l, wf s l -> "__proto__" ∉ (contents s l).*1 ->
     keys s ≡ₚ (contents s l).*1) /\
  ((forall k, k ∈ keys s -> ascii_only k = true) ->
     StronglySorted String.le (keys s)).
Proof.
  assert (Hperm : keys s ≡ₚ
      filter (fun k => k <> "__proto__") (map_to_list (_keys s)).*1)
    by apply merge_sort_Permutation.
  assert (Hnd : NoDup (keys s)).
  { rewrite Hperm. apply NoDup_filter, NoDup_fst_map_to_list. }
  assert (Hin : forall k, k ∈ keys s <-> is_Some (_keys s !! k) /\ k <> "__proto__").
  { intros k. rewrite Hperm, list_elem_of_filter, list_elem_of_fmap. split.
    - intros [Hne ([k' x] & -> & Hkx)]. apply elem_of_map_to_list in Hkx.
      split; [by exists x|done].
    - intros [[x Hx] Hne]. split; [done|].
      exists (k, x). split; [done|]. by apply elem_of_map_to_list. }
  split; [done|]. split; [done|]. split; [|split].
  - intros k Hp. rewrite Hin. unfold isSet. cbn [fst].
    pose proof (plain_not_proto k Hp) as Hne.
    rewrite (plain_not_inherited k Hp).
    destruct (_keys s !! k); simpl; split;
      first [done | by intros [[? ?] _] | by intros _; split; [eexists|]].
  - intros l Hwf Hproto. apply NoDup_Permutation; [done|by apply wf_keys_NoDup|].
    intros k. rewrite Hin, contents_keys, list_elem_of_fmap.
    destruct Hwf as (_ & _ & Hix). split.
    + intros [[x Hx] _]. apply Hix in Hx as [Hx Hk]. by exists x.
    + intros (x & -> & Hx). split; [exists x; by apply Hix|].
      intros Hk. apply Hproto. rewrite contents_keys, list_elem_of_fmap.
      by exists x.
  - intros _. apply (StronglySorted_merge_sort _).
Qed.

(** ** Further properties: capacities *)

Lemma toFixed0_nearest q :
  (q - (1 # 2) <= inject_Z (toFixed0 q) <= q + (1 # 2))%Q.
Proof.
  unfold toFixed0. destruct (Qle_bool 0 q) eqn:Hq.
  - pose proof (Qfloor_le (q + (1 # 2))) as Hlo.
    pose proof (Qlt_floor (q + (1 # 2))) as Hhi.
    rewrite inject_Z_plus in Hhi. change (inject_Z 1) with 1%Q in Hhi.
    split; lra.
  - pose proof (Qfloor_le (- q + (1 # 2))) as Hlo.
    pose proof (Qlt_floor (- q + (1 # 2))) as Hhi.
    rewrite inject_Z_plus in Hhi. change (inject_Z 1) with 1%Q in Hhi.
    rewrite inject_Z_opp. split; lra.
Qed.

(** X18.  [_toNumber].  A value that parses to [NaN] or an infinity
    yields the fallback.  A finite value is rounded to a nearest integer
    (so 2.5 gives 3) and yields that integer when it lies between the
    bounds, the upper bound when it is above and the lower bound when it
    is below; with ordered bounds the result lies between them. *)
Theorem _toNumber_result parsed fallback lo hi :
  match parsed with
  | NaN | Infinity _ => _toNumber parsed fallback lo hi = fallback
  | Finite q =>
      let r := toFixed0 q in
      (q - (1 # 2) <= inject_Z r <= q + (1 # 2))%Q /\
      _toNumber parsed fallback lo hi =
        (if decide (hi < r) then hi else if decide (r < lo) then lo else r) /\
      (lo <= hi -> lo <= _toNumber parsed fallback lo hi <= hi)
  end /\
  _toNumber (Finite (5 # 2)) fallback 1 999 = 3.
Proof.
  split; [|done]. destruct parsed as [| |q]; [done|done|]. cbv zeta.
  split; [apply toFixed0_nearest|]. unfold _toNumber.
  destruct (Z.ltb_spec hi (toFixed0 q)).
  - rewrite decide_True by done. split; [done|lia].
  - rewrite decide_False by lia. destruct (Z.ltb_spec (toFixed0 q) lo).
    + rewrite decide_True by done. split; [done|lia].
    + rewrite decide_False by lia. split; [done|lia].
Qed.

(** X19.  The constructor.  Whatever the argument, a new cache is
    empty and well formed with [_currentSize] 0, and its capacity is an
    integer from 2 to [Number.MAX_VALUE]: 2 when the argument does not
    parse to a finite number or rounds below 2, and the argument itself
    when it is an integer in that range. *)
Theorem constructor_capacity parsed :
  let s := CacheLRU parsed in
  wf s [] /\ _currentSize s = 0 /\ keys s = [] /\
  2 <= limit_get s <= MAX_VALUE /\
  match parsed with
  | NaN | Infinity _ => limit_get s = 2
  | Finite q =>
      (toFixed0 q < 2 -> limit_get s = 2) /\
      (forall n, q = inject_Z n -> 2 <= n <= MAX_VALUE -> limit_get s = n)
  end.
Proof.
  cbv zeta. split_and!; [apply CacheLRU_wf|done|done|apply _toNumber_floor..|].
  destruct (constructor_clamps parsed) as [_ Hc].
  destruct parsed as [| |q]; [done|done|]. split; [done|].
  intros n -> Hn. by apply constructor_integer.
Qed.

(** X20.  The [limit] setter and getter.  An assignment stores the
    parsed value, or 2 when it is [NaN], infinite or below 2, and [limit]
    then reads that capacity, also when the assignment throws; it never
    changes [_currentSize].  It returns normally exactly when lodash is
    loaded or [_currentSize] already equals the capacity stored. *)
Theorem limit_assignment g parsed s :
  let s' := state_of (limit_set g parsed s) in
  limit_get s' = clamped parsed /\
  2 <= clamped parsed /\
  match parsed with
  | NaN | Infinity _ => clamped parsed = 2
  | Finite n => clamped parsed = Z.max 2 n
  end /\
  _currentSize s' = _currentSize s /\
  ((exists s1, limit_set g parsed s = Returns s1) <->
   g = Lodash \/ _currentSize s = clamped parsed).
Proof.
  cbv zeta. destruct (limit_set_stores g parsed s) as (Hget & Hge & _).
  split_and!; [done|done| |apply limit_set_count|].
  - destruct parsed as [| |n]; [done|done|]. unfold clamped, _minCacheSize.
    destruct (Z.ltb_spec n 2); lia.
  - pose proof (limit_set_completion g parsed s) as Hc. destruct g.
    + case_decide as Heq; rewrite Hc; split.
      * intros _. by right.
      * intros _. by eexists.
      * by intros [s1 Hs1].
      * by intros [|].
    + split; [intros _; by left|done].
Qed.

(** ** Witnesses of the further properties *)

Lemma cache_a_wf : wf cache_a [0%nat].
Proof.
  apply (put_each_fresh_wf _ [("a", Num 1)]); [by vm_compute|].
  apply (bool_decide_unpack _). by vm_compute.
Qed.

Lemma cache_abcde_wf : wf cache_abcde [0; 1; 2; 3; 4]%nat.
Proof.
  apply (put_each_fresh_wf _
    [("a", Num 1); ("b", Num 2); ("c", Num 3); ("d", Num 4); ("e", Num 5)]);
    [by vm_compute|].
  apply (bool_decide_unpack _). by vm_compute.
Qed.

Lemma indexed_nil s : _keys s = ∅ -> indexed s [].
Proof.
  intros Hk k x. rewrite Hk, lookup_empty. split; [done|].
  intros [Hx _]. by apply elem_of_nil in Hx.
Qed.

Lemma cache_drained_wf : wf cache_drained [].
Proof.
  assert (Hk : _keys cache_drained = ∅) by by vm_compute.
  assert (Hhd : head cache_drained = None) by by vm_compute.
  assert (Htl : tail cache_drained = None) by by vm_compute.
  pose proof (indexed_nil cache_drained Hk) as Hix.
  generalize dependent cache_drained. intros s _ Hhd Htl Hix.
  unfold wf, ordered. split_and!; try done. apply NoDup_nil_2.
Qed.

Lemma iterate_both_ways_witness :
  wf cache_abc [0; 1; 2]%nat /\ (length [0; 1; 2]%nat < 4)%nat /\
  iterate false 4 cache_abc = [("a", Num 1); ("b", Num 2); ("c", Num 3)] /\
  iterate true 4 cache_abc = reverse (iterate false 4 cache_abc).
Proof.
  assert (Hf : (length [0; 1; 2]%nat < 4)%nat) by (simpl; lia).
  destruct (iterate_both_ways cache_abc [0; 1; 2]%nat 4 cache_abc_wf Hf) as [Ha Hd].
  split_and!; [exact cache_abc_wf|exact Hf|exact Ha|exact Hd].
Defined.

Lemma drain_in_order_witness :
  wf cache_abc [0; 1; 2]%nat /\
  (drain 2 cache_abc).1 = [Ref 0%nat; Ref 1%nat] /\
  order (drain 2 cache_abc).2 = [2%nat].
Proof.
  destruct (drain_in_order 2 cache_abc [0; 1; 2]%nat cache_abc_wf) as (Hr & Ho & _).
  split_and!; [exact cache_abc_wf|exact Hr|exact Ho].
Defined.

Lemma limit_evicts_oldest_witness :
  wf cache_abcde [0; 1; 2; 3; 4]%nat /\
  exists s', limit_set Lodash (Finite 3) cache_abcde = Returns s' /\
             order s' = [2; 3; 4]%nat.
Proof.
  split; [exact cache_abcde_wf|].
  destruct (limit_evicts_oldest (Finite 3) cache_abcde [0; 1; 2; 3; 4]%nat
              cache_abcde_wf) as (s' & Hr & _ & Ho & _).
  exists s'. split; [exact Hr|exact Ho].
Defined.

Lemma put_appends_newest_witness :
  wf cache_abc [0; 1; 2]%nat /\ _keys cache_abc !! "d" = None /\
  "d" <> "__proto__" /\
  _currentSize cache_abc <> _cacheSize cache_abc /\
  (put "d" (Num 4) cache_abc).1 = Null /\
  (isSet "d" (put "d" (Num 4) cache_abc).2).1 = Ref 3%nat /\
  _currentSize (put "d" (Num 4) cache_abc).2 = 3 + 1.
Proof.
  assert (Hroom : _currentSize cache_abc <> _cacheSize cache_abc) by by vm_compute.
  assert (Hd : "d" <> "__proto__") by discriminate.
  destruct (put_appends_newest "d" (Num 4) cache_abc [0; 1; 2]%nat
              cache_abc_wf eq_refl Hd Hroom) as (Hr & _ & _ & _ & Hset & _ & Hsz).
  split_and!;
    [exact cache_abc_wf|reflexivity|exact Hd|exact Hroom|exact Hr|exact Hset|exact Hsz].
Defined.

Lemma put_evicts_oldest_witness :
  wf cache_ab [0; 1]%nat /\ _keys cache_ab !! "c" = None /\
  "c" <> "__proto__" /\
  _currentSize cache_ab = _cacheSize cache_ab /\
  plain "a" = true /\
  (put "c" (Num 3) cache_ab).1 = Ref 0%nat /\
  (isSet "a" (put "c" (Num 3) cache_ab).2).1 = Undefined.
Proof.
  assert (Hc : "c" <> "__proto__") by discriminate.
  destruct (put_evicts_oldest "c" (Num 3) cache_ab 0%nat [1%nat]
              cache_ab_wf eq_refl Hc eq_refl)
    as (Hr & _ & _ & _ & _ & _ & _ & _ & _ & Hgone & _).
  split_and!;
    [exact cache_ab_wf|reflexivity|exact Hc|reflexivity|reflexivity|exact Hr|].
  exact (Hgone eq_refl).
Defined.

Lemma get_moves_to_newest_witness :
  wf cache_abc ([0%nat] ++ 1%nat :: [2%nat]) /\ _keys cache_abc !! "b" = Some 1%nat /\
  (get "b" false cache_abc).1 = Num 2 /\
  wf (get "b" false cache_abc).2 [0; 2; 1]%nat.
Proof.
  destruct (get_moves_to_newest "b" cache_abc [0%nat] 1%nat [2%nat]
              cache_abc_wf eq_refl) as (Hr & Hwf & _).
  split_and!; [exact cache_abc_wf|reflexivity|exact Hr|exact Hwf].
Defined.

Lemma get_then_shift_spares_witness :
  wf cache_abc ([] ++ 0%nat :: [1; 2]%nat) /\ _keys cache_abc !! "a" = Some 0%nat /\
  [] ++ [1; 2]%nat <> [] /\
  exists y, (shift (get "a" false cache_abc).2).1 = Ref y /\ y <> 0%nat.
Proof.
  assert (Hne : [] ++ [1; 2]%nat <> []) by done.
  destruct (get_then_shift_spares "a" cache_abc [] 0%nat [1; 2]%nat
              cache_abc_wf eq_refl Hne) as (y & Hr & Hy & _).
  split_and!; [exact cache_abc_wf|reflexivity|exact Hne|].
  exists y. split; [exact Hr|exact Hy].
Defined.

Lemma set_overwrites_witness :
  wf cache_abc ([0%nat] ++ 1%nat :: [2%nat]) /\ _keys cache_abc !! "b" = Some 1%nat /\
  (set "b" (Num 7) cache_abc).1 = Num 2 /\
  wf (set "b" (Num 7) cache_abc).2 [0; 2; 1]%nat.
Proof.
  destruct (set_overwrites "b" (Num 7) cache_abc [0%nat] 1%nat [2%nat]
              cache_abc_wf eq_refl) as (Hr & Hwf & _).
  split_and!; [exact cache_abc_wf|reflexivity|exact Hr|exact Hwf].
Defined.

Lemma set_inserts_witness :
  wf cache_ab [0; 1]%nat /\ _keys cache_ab !! "c" = None /\
  plain "c" = true /\
  ([0; 1]%nat <> [] \/ _currentSize cache_ab <> _cacheSize cache_ab) /\
  wf (set "c" (Num 3) cache_ab).2 [1; 2]%nat.
Proof.
  assert (Hne : [0; 1]%nat <> [] \/ _currentSize cache_ab <> _cacheSize cache_ab)
    by by left.
  pose proof (set_inserts "c" (Num 3) cache_ab [0; 1]%nat cache_ab_wf eq_refl
                eq_refl Hne) as H.
  cbv zeta in H. rewrite decide_True in H by reflexivity.
  destruct H as (_ & Hwf & _).
  split_and!; [exact cache_ab_wf|reflexivity|reflexivity|exact Hne|exact Hwf].
Defined.


Lemma put_evicts_itself_witness :
  wf cache_drained [] /\ _keys cache_drained !! "d" = None /\
  plain "d" = true /\
  _currentSize cache_drained = _cacheSize cache_drained /\
  (put "d" (Num 4) cache_drained).1 = Ref 3%nat /\
  (get "d" false (set "d" (Num 4) cache_drained).2).1 = Undefined.
Proof.
  destruct (put_evicts_itself "d" (Num 4) cache_drained
              cache_drained_wf eq_refl eq_refl eq_refl) as (Hr & _ & _ & _ & _ & Hg).
  split_and!;
    [exact cache_drained_wf|reflexivity|reflexivity|reflexivity|exact Hr|exact Hg].
Defined.

Lemma shift_of_only_entry_witness :
  wf cache_a [0%nat] /\
  tail (shift cache_a).2 = Some 0%nat /\
  order (put "b" (Num 2) (shift cache_a).2).2 = [] /\
  (get "b" false (put "b" (Num 2) (shift cache_a).2).2).1 = Num 2.
Proof.
  destruct (shift_of_only_entry cache_a 0%nat cache_a_wf) as (_ & Ht & Hput).
  destruct (Hput "b" (Num 2) 0%nat) as (_ & _ & Ho & _ & _ & Hg).
  split_and!; [exact cache_a_wf|exact Ht|exact Ho|exact Hg].
Defined.

Lemma destroy_then_fill_witness :
  let cs := [Put "a" (Num 1); Put "a" (Num 2); Shift] in
  let kvs := [("x", Num 1); ("y", Num 2)] in
  let s := run Unbound cs (CacheLRU (Finite (2 # 1))) in
  forallb plain_call cs = true /\
  forallb plain kvs.*1 = true /\
  NoDup kvs.*1 /\
  Z.of_nat (length kvs) <= _cacheSize s /\
  iterate false 3 (put_each kvs (destroy s)).2 = kvs.
Proof.
  intros cs kvs s.
  assert (Hnd : NoDup kvs.*1).
  { apply (bool_decide_unpack _). by vm_compute. }
  assert (Hlen : Z.of_nat (length kvs) <= _cacheSize s) by by vm_compute.
  destruct (destroy_then_fill Unbound (Finite (2 # 1)) cs kvs eq_refl eq_refl Hnd Hlen)
    as (_ & _ & _ & Hit & _).
  destruct (Hit 3%nat) as [Hasc _]; [simpl; lia|].
  split_and!; [reflexivity|reflexivity|exact Hnd|exact Hlen|exact Hasc].
Defined.

Lemma upsert_calls_keep_exact_witness :
  forallb is_upsert upsert_calls = true /\
  forallb plain_call upsert_calls = true /\
  exists l, wf (run Unbound upsert_calls (CacheLRU (Finite (2 # 1)))) l /\
            Z.of_nat (length l) <= 2.
Proof.
  split; [reflexivity|]. split; [reflexivity|].
  destruct (upsert_calls_keep_exact Unbound (Finite (2 # 1)) upsert_calls
              eq_refl eq_refl)
    as (l & Hwf & _ & Hle & Hlim & _).
  exists l. split; [exact Hwf|]. rewrite Hlim in Hle. exact Hle.
Defined.

Lemma upsert_calls_refine_spec_witness :
  forallb is_upsert upsert_calls = true /\
  forallb plain_call upsert_calls = true /\
  (invoke_each Unbound upsert_calls (CacheLRU (Finite (2 # 1)))).1 =
    zip_with shown upsert_calls
      (spec_invoke_each 2 upsert_calls []).1.
Proof.
  split; [reflexivity|]. split; [reflexivity|].
  destruct (upsert_calls_refine_spec Unbound (Finite (2 # 1)) upsert_calls
              eq_refl eq_refl)
    as [Hr _].
  exact Hr.
Defined.

Lemma count_within_capacity_witness :
  forallb (fun c => negb (is_limit c))
    [Put "a" (Num 1); Put "a" (Num 2); Shift; Shift; Put "b" (Num 3); Remove "b"] = true /\
  _currentSize (run Unbound
    [Put "a" (Num 1); Put "a" (Num 2); Shift; Shift; Put "b" (Num 3); Remove "b"]
    (CacheLRU (Finite (2 # 1)))) <= 2.
Proof.
  split; [reflexivity|].
  destruct (count_within_capacity Unbound (Finite (2 # 1))
    [Put "a" (Num 1); Put "a" (Num 2); Shift; Shift; Put "b" (Num 3); Remove "b"]
    eq_refl) as [_ H].
  exact H.
Defined.

Lemma keys_sorted_witness :
  let s := (get "a" false cache_abc).2 in
  wf s [1; 2; 0]%nat /\
  ("__proto__" ∉ (contents s [1; 2; 0]%nat).*1) /\
  (forall k, k ∈ keys s -> ascii_only k = true) /\
  plain "b" = true /\
  keys s ≡ₚ (contents s [1; 2; 0]%nat).*1 /\
  StronglySorted String.le (keys s) /\
  ("b" ∈ keys s <-> truthy (isSet "b" s).1 = true).
Proof.
  intros s.
  destruct (get_promotes "a" false cache_abc [] 0%nat [1; 2]%nat cache_abc_wf eq_refl)
    as (Hwf & _).
  assert (Hkeys : keys s = ["a"; "b"; "c"]) by by vm_compute.
  assert (Hcont : (contents s [1; 2; 0]%nat).*1 = ["b"; "c"; "a"]) by by vm_compute.
  assert (Hproto : "__proto__" ∉ (contents s [1; 2; 0]%nat).*1).
  { rewrite Hcont. apply (bool_decide_unpack _). by vm_compute. }
  assert (Hascii : forall k, k ∈ keys s -> ascii_only k = true).
  { intros k. rewrite Hkeys. intros Hk.
    repeat (apply elem_of_cons in Hk as [->|Hk]; [reflexivity|]).
    by apply elem_of_nil in Hk. }
  destruct (keys_sorted s) as (_ & _ & Hset & Hp & Hs).
  split_and!; [exact Hwf|exact Hproto|exact Hascii|reflexivity|
               exact (Hp _ Hwf Hproto)|exact (Hs Hascii)|exact (Hset "b" eq_refl)].
Defined.

Lemma remove_unlinks_witness :
  _keys cache_abc !! "b" = Some 1%nat /\
  wf cache_abc ([0%nat] ++ 1%nat :: [2%nat]) /\
  "b" <> "__proto__" /\
  (remove "b" cache_abc).1 = Num 2 /\
  order (remove "b" cache_abc).2 = [0; 2]%nat /\
  _keys cache_abc !! "z" = None /\
  plain "z" = true /\
  remove "z" cache_abc = (Undefined, cache_abc).
Proof.
  assert (Hb : "b" <> "__proto__") by discriminate.
  destruct (remove_unlinks "b" cache_abc) as [Hpresent _].
  destruct (remove_unlinks "z" cache_abc) as [_ Habsent].
  destruct (Hpresent 1%nat [0%nat] [2%nat] eq_refl cache_abc_wf Hb)
    as (Hres & _ & Hord & _).
  split_and!; [reflexivity|exact cache_abc_wf|exact Hb|exact Hres|exact Hord|
               reflexivity|reflexivity|].
  exact (Habsent eq_refl eq_refl).
Defined.

Lemma shift_unlinks_head_witness :
  wf cache_abc [0; 1; 2]%nat /\
  (shift cache_abc).1 = Ref 0%nat /\
  order (shift cache_abc).2 = [1; 2]%nat /\
  _currentSize (shift cache_abc).2 = 3 /\
  _currentSize (remove "a" cache_abc).2 = 2.
Proof.
  destruct (shift_unlinks_head cache_abc 0%nat [1; 2]%nat cache_abc_wf)
    as (Hres & _ & _ & _ & _ & _ & _ & _ & Hord & _ & _ & _ & _ & _ & _ & _ &
        Hsz & _ & Hrm).
  split_and!; [exact cache_abc_wf|exact Hres|exact Hord|exact Hsz|exact Hrm].
Defined.

Lemma _toNumber_result_witness :
  1 <= 999 /\ 1 <= _toNumber (Finite (2000 # 1)) 0 1 999 <= 999.
Proof.
  assert (H : 1 <= 999) by lia.
  destruct (_toNumber_result (Finite (2000 # 1)) 0 1 999) as [(_ & _ & Hb) _].
  split; [exact H|exact (Hb H)].
Defined.

Lemma constructor_capacity_witness :
  (7 # 1 = inject_Z 7)%type /\ 2 <= 7 <= MAX_VALUE /\
  limit_get (CacheLRU (Finite (7 # 1))) = 7 /\
  toFixed0 (1 # 2) < 2 /\ limit_get (CacheLRU (Finite (1 # 2))) = 2.
Proof.
  assert (H7 : 2 <= 7 <= MAX_VALUE) by (split; by vm_compute).
  assert (Hlt : toFixed0 (1 # 2) < 2) by by vm_compute.
  destruct (constructor_capacity (Finite (7 # 1))) as (_ & _ & _ & _ & _ & Hn).
  destruct (constructor_capacity (Finite (1 # 2))) as (_ & _ & _ & _ & Hlow & _).
  exact (conj eq_refl (conj H7 (conj (Hn 7 eq_refl H7) (conj Hlt (Hlow Hlt))))).
Defined.
